(** * A bounded key-value cache with per-entry expiry

    Shallow embedding of the [Cache] constructor function of the Map
    cheat-sheet (section "3. Cache Implementation (using Map)") together
    with the part of the built-in [Map] it relies on.

    The built-in [Map] keeps its entries in insertion order, and the cache
    evicts through [keys().next().value], so the store is an association
    list read from the oldest entry to the newest.  [Date.now()] is an
    input of every method call: the clock reading is passed explicitly. *)

From Stdlib Require Import List ZArith Lia Bool String Zdivisibility.
From Equations Require Import Equations.
Import ListNotations.
Open Scope Z_scope.

(** ** JavaScript values

    Keys and payloads are primitive values.  Numbers are integers here, so
    the SameValueZero comparison a [Map] uses on keys is plain equality. *)

Inductive js_value : Type :=
| JUndefined
| JNull
| JBool (b : bool)
| JNum (n : Z)
| JStr (s : string).

Definition js_value_eq_dec (a b : js_value) : {a = b} + {a <> b}.
Proof.
  decide equality; [apply bool_dec | apply Z.eq_dec | apply string_dec].
Defined.

(** Outcome of a call: a normal completion or a thrown exception. *)
Inductive completion (A : Type) : Type :=
| Normal (result : A)
| Throw (exn : js_value).
Arguments Normal {A} result.
Arguments Throw {A} exn.

(** ** The built-in Map, entries in insertion order *)

Module JsMap.
Section Entries.
Variable E : Type.

Definition t : Type := list (js_value * E).

  (** [new Map()] *)
Definition empty : t := [].

  (** [map.size] *)
Definition size (m : t) : Z := Z.of_nat (List.length m).

  (** [map.get(k)]; [None] stands for [undefined]. *)
Fixpoint get (k : js_value) (m : t) : option E :=
    match m with
    | [] => None
    | (k', e) :: rest =>
        if js_value_eq_dec k k' then Some e else get k rest
    end.

  (** [map.set(k, e)]: a key already present keeps its place, a new key
      goes last. *)
Fixpoint set (k : js_value) (e : E) (m : t) : t :=
    match m with
    | [] => [(k, e)]
    | (k', e') :: rest =>
        if js_value_eq_dec k k' then (k', e) :: rest
        else (k', e') :: set k e rest
    end.

  (** [map.delete(k)] *)
Fixpoint delete (k : js_value) (m : t) : t :=
    match m with
    | [] => []
    | (k', e') :: rest =>
        if js_value_eq_dec k k' then delete k rest
        else (k', e') :: delete k rest
    end.

  (** [[...map.keys()]] *)
Definition keys (m : t) : list js_value := map fst m.

  (** [map.keys().next().value]: the oldest key, [undefined] when the
      iterator is exhausted at once. *)
Definition first_key (m : t) : js_value :=
    match keys m with
    | [] => JUndefined
    | k :: _ => k
    end.

  (** [map.clear()] *)
Definition clear (m : t) : t := [].

  (** Keys of a Map are pairwise distinct. *)
Definition wf (m : t) : Prop := NoDup (keys m).
End Entries.

Arguments empty {E}.
Arguments size {E} m.
Arguments get {E} k m.
Arguments set {E} k e m.
Arguments delete {E} k m.
Arguments keys {E} m.
Arguments first_key {E} m.
Arguments clear {E} m.
Arguments wf {E} m.
End JsMap.

(** ** The cache *)

Module Cache.

  (** The object literal stored under each key: [{ value, expiry }]. *)
Record entry : Type := mkEntry { value : js_value; expiry : Z }.

  (** The fields the constructor puts on [this]. *)
Record t : Type := mkCache { cache : JsMap.t entry; maxSize : Z }.

Definition with_cache (m : JsMap.t entry) (this : t) : t :=
    {| cache := m; maxSize := maxSize this |}.

  (** Default parameter values: used when the argument is left out. *)
Definition default_maxSize : Z := 100.
Definition default_ttl : Z := 60000.

Definition or_default (d : Z) (arg : option Z) : Z :=
    match arg with
    | Some x => x
    | None => d
    end.

  (** [new Cache(maxSize = 100)]: the body has no [throw]. *)
Definition new (maxSize : option Z) : completion t :=
    Normal {| cache := JsMap.empty;
              maxSize := or_default default_maxSize maxSize |}.

  (** [this.set(key, value, ttl = 60000)], with [now] the value of
      [Date.now()]. *)
Definition set (key value : js_value) (ttl : option Z) (now : Z)
                 (this : t) : t :=
    let ttl := or_default default_ttl ttl in
    let this1 :=
      if JsMap.size (cache this) >=? maxSize this then
        let firstKey := JsMap.first_key (cache this) in
        with_cache (JsMap.delete firstKey (cache this)) this
      else this in
    with_cache
      (JsMap.set key {| value := value; expiry := now + ttl |} (cache this1))
      this1.

  (** [this.get(key)], with [now] the value of [Date.now()]; returns the
      result and the cache afterwards. *)
Definition get (key : js_value) (now : Z) (this : t) : js_value * t :=
    match JsMap.get key (cache this) with
    | None => (JNull, this)
    | Some data =>
        if now >? expiry data then
          (JNull, with_cache (JsMap.delete key (cache this)) this)
        else (value data, this)
    end.

  (** [this.clear()] *)
Definition clear (this : t) : t :=
    with_cache (JsMap.clear (cache this)) this.

  (** *** Sequences of method calls *)

Inductive call : Type :=
  | Put (key value : js_value) (ttl : option Z)
  | Get (key : js_value)
  | Clear.

  (** One call, made when the clock reads [now]. *)
Definition step (now : Z) (c : call) (this : t) : t :=
    match c with
    | Put key value ttl => set key value ttl now this
    | Get key => snd (get key now this)
    | Clear => clear this
    end.

  (** The cache after a sequence of calls, each with its clock reading. *)
Fixpoint run (calls : list (Z * call)) (this : t) : t :=
    match calls with
    | [] => this
    | (now, c) :: rest => run rest (step now c this)
    end.

  (** The cache after each call of a sequence, the starting one first. *)
Fixpoint history (calls : list (Z * call)) (this : t) : list t :=
    this ::
    match calls with
    | [] => []
    | (now, c) :: rest => history rest (step now c this)
    end.

Definition wf (this : t) : Prop := JsMap.wf (cache this).

(** The key a call puts, if it is a put. *)
Definition put_key (c : call) : option js_value :=
  match c with
  | Put key _ _ => Some key
  | _ => None
  end.

(** Every put of the sequence uses a key of [ks]. *)
Definition puts_within (ks : list js_value) (calls : list (Z * call)) : Prop :=
  forall t c key, In (t, c) calls -> put_key c = Some key -> In key ks.

End Cache.

(** ** The Map utilities of the same cheat-sheet *)

Module MapUtils.

(** [new Map(iterable)]: the pairs are [set] one after the other into an
    empty Map. *)
Definition from_entries {E : Type} (entries : list (js_value * E))
  : JsMap.t E :=
  fold_left (fun m kv => JsMap.set (fst kv) (snd kv) m) entries JsMap.empty.

(** [[...map]]: the entries in insertion order. *)
Definition entries {E : Type} (m : JsMap.t E) : list (js_value * E) := m.

(** [arr.map((val, i) => [i, val])], counting from [i]. *)
Fixpoint indexed_from {E : Type} (i : Z) (arr : list E)
  : list (js_value * E) :=
  match arr with
  | [] => []
  | val :: rest => (JNum i, val) :: indexed_from (i + 1) rest
  end.

(** [arrayToMap = arr => new Map(arr.map((val, i) => [i, val]))] *)
Definition arrayToMap {E : Type} (arr : list E) : JsMap.t E :=
  from_entries (indexed_from 0 arr).

(** [mergeMaps = (map1, map2) => new Map([...map1, ...map2])] *)
Definition mergeMaps {E : Type} (map1 map2 : JsMap.t E) : JsMap.t E :=
  from_entries (entries map1 ++ entries map2).

(** [filterMap = (map, predicate) =>
      new Map([...map].filter(([k, v]) => predicate(k, v)))] *)
Definition filterMap {E : Type} (m : JsMap.t E)
    (predicate : js_value -> E -> bool) : JsMap.t E :=
  from_entries (filter (fun kv => predicate (fst kv) (snd kv)) (entries m)).

(** [mapValues = (map, transform) =>
      new Map([...map].map(([k, v]) => [k, transform(v)]))] *)
Definition mapValues {E F : Type} (m : JsMap.t E) (transform : E -> F)
  : JsMap.t F :=
  from_entries (map (fun kv => (fst kv, transform (snd kv))) (entries m)).

(** [groupBy = (arr, keyFn) => arr.reduce((map, item) => {
      const key = keyFn(item);
      return map.set(key, [...(map.get(key) || []), item]);
    }, new Map())].  Every stored group is an array, hence truthy, so
    the [|| []] branch is taken exactly when the key is not stored. *)
Definition groupBy {A : Type} (arr : list A) (keyFn : A -> js_value)
  : JsMap.t (list A) :=
  fold_left
    (fun map item =>
       let key := keyFn item in
       JsMap.set key
         (match JsMap.get key map with
          | Some group => group
          | None => []
          end ++ [item])
         map)
    arr JsMap.empty.

(** Number of items over all groups of a grouping. *)
Definition grouped_items {A : Type} (m : JsMap.t (list A)) : nat :=
  list_sum (map (fun kv => List.length (snd kv)) m).

End MapUtils.

(** ** The number utilities of the same cheat-sheet

    Numbers are integers here; on integers the operators used below
    ([%], [*], [+], comparisons, [Math.abs]) are exact.  [%] takes the sign
    of the dividend, which is [Z.rem]. *)

Module NumberUtils.



(** [gcd = (a, b) => { while (b) [a, b] = [b, a % b];
                       return Math.abs(a); }] *)
Equations? gcd (a b : Z) : Z by wf (Z.abs_nat b) lt :=
  gcd a b with Z.eq_dec b 0 := {
    | left _ => Z.abs a
    | right _ => gcd b (Z.rem a b) }.
Proof.
  pose proof (Z.rem_bound_abs a b). lia.
Qed.


(** The [for] loop of [isPrime], entered with the current [i]. *)
Equations? isPrime_loop (num i : Z) : bool
    by wf (Z.to_nat (num + 1 - i)) lt :=
  isPrime_loop num i with Z_le_dec (i * i) num := {
    | left _ =>
        if (Z.rem num i =? 0) || (Z.rem num (i + 2) =? 0) then false
        else isPrime_loop num (i + 6)
    | right _ => true }.
Proof.
  nia.
Qed.

(** [isPrime] *)
Definition isPrime (num : Z) : bool :=
  if num <=? 1 then false
  else if num <=? 3 then true
  else if (Z.rem num 2 =? 0) || (Z.rem num 3 =? 0) then false
  else isPrime_loop num 5.

(** ToInt32: the operand conversion of the bitwise operators. *)
Definition to_int32 (z : Z) : Z := (z + 2 ^ 31) mod 2 ^ 32 - 2 ^ 31.

(** The [while (num)] loop of [countSetBits]; [None] when [fuel]
    iterations were not enough to leave it. *)
Fixpoint countSetBits_loop (fuel : nat) (num count : Z) : option Z :=
  match fuel with
  | O => None
  | S fuel' =>
      if num =? 0 then Some count
      else countSetBits_loop fuel'
             (Z.shiftr (to_int32 num) 1)
             (count + Z.land (to_int32 num) 1)
  end.

(** [countSetBits] *)
Definition countSetBits (fuel : nat) (num : Z) : option Z :=
  countSetBits_loop fuel num 0.

(** [isPowerOfTwo = num => num > 0 && (num & (num - 1)) === 0] *)
Definition isPowerOfTwo (num : Z) : bool :=
  (num >? 0) && (Z.land (to_int32 num) (to_int32 (num - 1)) =? 0).

(** Number of 1 digits in the binary writing of a positive number. *)
Fixpoint ones_of (p : positive) : Z :=
  match p with
  | xH => 1
  | xO p' => ones_of p'
  | xI p' => 1 + ones_of p'
  end.

(** Number of 1 digits of a non-negative number. *)
Definition set_bits (n : Z) : Z :=
  match n with
  | Zpos p => ones_of p
  | _ => 0
  end.

End NumberUtils.

(** ** Facts about the insertion-ordered Map *)

Module JsMapFacts.
Import JsMap.
Section Facts.
Context {E : Type}.
Implicit Types (m : JsMap.t E) (k : js_value) (e : E).

Ltac key_cases :=
  repeat match goal with
  | |- context [js_value_eq_dec ?a ?b] =>
      destruct (js_value_eq_dec a b); subst; simpl
  | H : context [js_value_eq_dec ?a ?b] |- _ =>
      destruct (js_value_eq_dec a b); subst; simpl in H
  end.

Lemma size_nonneg m : 0 <= size m.
Proof. unfold size. lia. Qed.

Lemma get_set_same k e m : get k (set k e m) = Some e.
Proof.
  induction m as [|[k' e'] rest IH]; simpl; key_cases; congruence.
Qed.

Lemma get_set_other k k' e m : k' <> k -> get k' (set k e m) = get k' m.
Proof.
  intros Hne.
  induction m as [|[k0 e0] rest IH]; simpl; key_cases; congruence.
Qed.

Lemma get_delete_same k m : get k (delete k m) = None.
Proof.
  induction m as [|[k' e'] rest IH]; simpl; key_cases; congruence.
Qed.

Lemma get_delete_other k k' m : k' <> k -> get k' (delete k m) = get k' m.
Proof.
  intros Hne.
  induction m as [|[k0 e0] rest IH]; simpl; key_cases; congruence.
Qed.

Lemma get_None_iff k m : get k m = None <-> ~ In k (keys m).
Proof.
  induction m as [|[k' e'] rest IH]; simpl.
  - tauto.
  - destruct (js_value_eq_dec k k') as [->|Hne].
    + split; [discriminate | intros H; exfalso; apply H; now left].
    + rewrite IH. split.
      * intros H [Heq|Hin]; [congruence | tauto].
      * tauto.
Qed.

Lemma get_Some_in k e m : get k m = Some e -> In k (keys m).
Proof.
  intros H. destruct (in_dec js_value_eq_dec k (keys m)) as [Hin|Hout].
  - exact Hin.
  - apply get_None_iff in Hout. congruence.
Qed.

Lemma in_keys_delete k k' m :
  In k' (keys (delete k m)) <-> k' <> k /\ In k' (keys m).
Proof.
  induction m as [|[k0 e0] rest IH]; simpl.
  - tauto.
  - destruct (js_value_eq_dec k k0) as [->|Hne]; simpl; rewrite IH.
    + split; [tauto|]. intros [Hd [Heq|Hin]]; [congruence | tauto].
    + split; [|tauto].
      intros [Heq|[Hd Hin]]; [subst; split; [congruence | now left] | tauto].
Qed.

Lemma in_keys_set k k' e m :
  In k' (keys (set k e m)) <-> k' = k \/ In k' (keys m).
Proof.
  induction m as [|[k0 e0] rest IH]; simpl.
  - split; [intros [H|[]]; auto | intros [H|[]]; auto].
  - destruct (js_value_eq_dec k k0) as [->|Hne]; simpl.
    + split; [tauto|]. intros [H|H]; [left; congruence | exact H].
    + rewrite IH. tauto.
Qed.

Lemma delete_absent k m : ~ In k (keys m) -> delete k m = m.
Proof.
  induction m as [|[k0 e0] rest IH]; simpl; intros Hout.
  - reflexivity.
  - destruct (js_value_eq_dec k k0) as [->|Hne].
    + exfalso. apply Hout. now left.
    + f_equal. apply IH. tauto.
Qed.

Lemma set_absent k e m : ~ In k (keys m) -> set k e m = m ++ [(k, e)].
Proof.
  induction m as [|[k0 e0] rest IH]; simpl; intros Hout.
  - reflexivity.
  - destruct (js_value_eq_dec k k0) as [->|Hne].
    + exfalso. apply Hout. now left.
    + f_equal. apply IH. tauto.
Qed.

Lemma keys_set_present k e m : In k (keys m) -> keys (set k e m) = keys m.
Proof.
  induction m as [|[k0 e0] rest IH]; simpl; intros Hin.
  - destruct Hin.
  - destruct (js_value_eq_dec k k0) as [->|Hne]; simpl.
    + reflexivity.
    + f_equal. apply IH. destruct Hin; congruence.
Qed.

Lemma length_set_present k e m :
  In k (keys m) -> List.length (set k e m) = List.length m.
Proof.
  intros Hin. apply (keys_set_present k e) in Hin.
  unfold keys in Hin. apply (f_equal (@List.length _)) in Hin.
  now rewrite !length_map in Hin.
Qed.

Lemma length_set_le k e m :
  (List.length (set k e m) <= S (List.length m))%nat.
Proof.
  induction m as [|[k0 e0] rest IH]; simpl; key_cases; lia.
Qed.

Lemma length_delete_le k m :
  (List.length (delete k m) <= List.length m)%nat.
Proof.
  induction m as [|[k0 e0] rest IH]; simpl; key_cases; lia.
Qed.

Lemma length_delete_first_key m :
  m <> [] -> (S (List.length (delete (first_key m) m)) <= List.length m)%nat.
Proof.
  destruct m as [|[k0 e0] rest]; [congruence|]. intros _.
  unfold first_key. simpl.
  destruct (js_value_eq_dec k0 k0); [|congruence].
  pose proof (length_delete_le k0 rest). lia.
Qed.

Lemma delete_first_key_wf k0 e0 m :
  wf ((k0, e0) :: m) -> delete (first_key ((k0, e0) :: m)) ((k0, e0) :: m) = m.
Proof.
  unfold wf, first_key. simpl. intros Hnd.
  destruct (js_value_eq_dec k0 k0); [|congruence].
  apply delete_absent. now inversion Hnd.
Qed.

Lemma wf_delete k m : wf m -> wf (delete k m).
Proof.
  unfold wf.
  induction m as [|[k0 e0] rest IH]; simpl; intros Hnd.
  - constructor.
  - inversion Hnd; subst.
    destruct (js_value_eq_dec k k0) as [->|Hne]; simpl; auto.
    constructor; auto.
    fold (keys (delete k rest)). rewrite in_keys_delete. tauto.
Qed.

Lemma wf_set k e m : wf m -> wf (set k e m).
Proof.
  unfold wf.
  induction m as [|[k0 e0] rest IH]; simpl; intros Hnd.
  - constructor; [intros [] | constructor].
  - inversion Hnd; subst.
    destruct (js_value_eq_dec k k0) as [->|Hne]; simpl.
    + constructor; auto.
    + constructor; auto.
      fold (keys (set k e rest)). rewrite in_keys_set.
      intros [Heq|Hin]; [congruence | tauto].
Qed.

End Facts.
End JsMapFacts.

(** ** Facts about the cache methods *)

Section CacheFacts.
Import JsMapFacts.
Import Cache.
Implicit Types (this : Cache.t) (key value : js_value) (now : Z).

Lemma maxSize_set key value ttl now this :
  maxSize (Cache.set key value ttl now this) = maxSize this.
Proof.
  unfold Cache.set.
  destruct (JsMap.size (cache this) >=? maxSize this); reflexivity.
Qed.

Lemma maxSize_step now c this : maxSize (step now c this) = maxSize this.
Proof.
  destruct c as [key value ttl|key|]; cbn [step].
  - apply maxSize_set.
  - unfold Cache.get. destruct (JsMap.get key (cache this)) as [data|]; simpl.
    + destruct (now >? expiry data); reflexivity.
    + reflexivity.
  - reflexivity.
Qed.

(** What [get] does, case by case. *)
Lemma get_absent key now this :
  JsMap.get key (cache this) = None -> Cache.get key now this = (JNull, this).
Proof. unfold Cache.get. now intros ->. Qed.

Lemma get_live key now this data :
  JsMap.get key (cache this) = Some data -> now <= expiry data ->
  Cache.get key now this = (value data, this).
Proof.
  unfold Cache.get. intros -> Hle.
  destruct (Z.gtb_spec now (expiry data)); [lia | reflexivity].
Qed.

Lemma get_expired key now this data :
  JsMap.get key (cache this) = Some data -> expiry data < now ->
  Cache.get key now this
  = (JNull, with_cache (JsMap.delete key (cache this)) this).
Proof.
  unfold Cache.get. intros -> Hlt.
  destruct (Z.gtb_spec now (expiry data)); [reflexivity | lia].
Qed.

(** What [set] does to the store, by whether the size test fires. *)
Lemma cache_set_room key value ttl now this :
  JsMap.size (cache this) < maxSize this ->
  cache (Cache.set key value ttl now this)
  = JsMap.set key (mkEntry value (now + or_default default_ttl ttl))
      (cache this).
Proof.
  unfold Cache.set. intros Hlt.
  destruct (Z.geb_spec (JsMap.size (cache this)) (maxSize this));
    [lia | reflexivity].
Qed.

Lemma cache_set_full key value ttl now this :
  maxSize this <= JsMap.size (cache this) ->
  cache (Cache.set key value ttl now this)
  = JsMap.set key (mkEntry value (now + or_default default_ttl ttl))
      (JsMap.delete (JsMap.first_key (cache this)) (cache this)).
Proof.
  unfold Cache.set. intros Hle.
  destruct (Z.geb_spec (JsMap.size (cache this)) (maxSize this));
    [reflexivity | lia].
Qed.

(** The entry just written is the one found under its key. *)
Lemma get_after_set key value ttl now this :
  JsMap.get key (cache (Cache.set key value ttl now this))
  = Some (mkEntry value (now + or_default default_ttl ttl)).
Proof.
  destruct (Z_lt_le_dec (JsMap.size (cache this)) (maxSize this)).
  - rewrite cache_set_room by assumption. apply get_set_same.
  - rewrite cache_set_full by assumption. apply get_set_same.
Qed.

(** Distinct keys are kept by every method. *)
Lemma set_keeps_wf key value ttl now this :
  Cache.wf this -> Cache.wf (Cache.set key value ttl now this).
Proof.
  unfold Cache.wf. intros Hwf.
  destruct (Z_lt_le_dec (JsMap.size (cache this)) (maxSize this)).
  - rewrite cache_set_room by assumption. now apply JsMapFacts.wf_set.
  - rewrite cache_set_full by assumption.
    now apply JsMapFacts.wf_set, JsMapFacts.wf_delete.
Qed.

Lemma wf_step now c this : Cache.wf this -> Cache.wf (step now c this).
Proof.
  intros Hwf. destruct c as [key value ttl|key|]; cbn [step].
  - now apply set_keeps_wf.
  - unfold Cache.get. destruct (JsMap.get key (cache this)) as [data|]; simpl.
    + destruct (now >? expiry data); simpl; auto.
      now apply JsMapFacts.wf_delete.
    + exact Hwf.
  - constructor.
Qed.

Lemma wf_run calls this : Cache.wf this -> Cache.wf (run calls this).
Proof.
  revert this. induction calls as [|[now c] rest IH]; simpl; intros this Hwf.
  - exact Hwf.
  - apply IH. now apply wf_step.
Qed.

Lemma wf_new arg this : Cache.new arg = Normal this -> Cache.wf this.
Proof. intros [= <-]. constructor. Qed.

(** The size test keeps the store within [max 1 maxSize] entries. *)
Lemma size_set_bound key value ttl now this :
  JsMap.size (cache this) <= Z.max 1 (maxSize this) ->
  JsMap.size (cache (Cache.set key value ttl now this))
  <= Z.max 1 (maxSize this).
Proof.
  intros Hinv.
  destruct (Z_lt_le_dec (JsMap.size (cache this)) (maxSize this)) as [Hlt|Hle].
  - rewrite cache_set_room by assumption.
    pose proof (length_set_le key
      (mkEntry value (now + or_default default_ttl ttl)) (cache this)).
    unfold JsMap.size in *. lia.
  - rewrite cache_set_full by assumption.
    destruct (cache this) as [|[k0 e0] rest] eqn:Hm.
    + simpl. unfold JsMap.size. simpl. lia.
    + assert (Hne : (k0, e0) :: rest <> []) by discriminate.
      pose proof (length_delete_first_key _ Hne) as Hdel.
      pose proof (length_set_le key
        (mkEntry value (now + or_default default_ttl ttl))
        (JsMap.delete (JsMap.first_key ((k0, e0) :: rest))
           ((k0, e0) :: rest))) as Hset.
      unfold JsMap.size in *. lia.
Qed.

Lemma size_step_bound now c this :
  JsMap.size (cache this) <= Z.max 1 (maxSize this) ->
  JsMap.size (cache (step now c this)) <= Z.max 1 (maxSize this).
Proof.
  intros Hinv. destruct c as [key value ttl|key|]; cbn [step].
  - now apply size_set_bound.
  - unfold Cache.get. destruct (JsMap.get key (cache this)) as [data|]; simpl.
    + destruct (now >? expiry data); simpl; auto.
      pose proof (length_delete_le key (cache this)).
      unfold JsMap.size in *. lia.
    + exact Hinv.
  - unfold JsMap.size. simpl. lia.
Qed.

Lemma size_history_bound calls this :
  JsMap.size (cache this) <= Z.max 1 (maxSize this) ->
  Forall (fun c => JsMap.size (cache c) <= Z.max 1 (maxSize this))
         (history calls this).
Proof.
  revert this. induction calls as [|[now c] rest IH]; intros this Hinv.
  - simpl. constructor; [exact Hinv | constructor].
  - cbn [history]. constructor; [exact Hinv|].
    rewrite <- (maxSize_step now c this). apply IH.
    rewrite maxSize_step. now apply size_step_bound.
Qed.

Lemma run_in_history calls this : In (run calls this) (history calls this).
Proof.
  revert this. induction calls as [|[now c] rest IH]; intros this.
  - simpl. now left.
  - cbn [history run]. right. apply IH.
Qed.

(** A key that is not stored stays out until it is put again. *)
Lemma absent_step now c this key :
  (forall v ttl, c <> Put key v ttl) ->
  ~ In key (JsMap.keys (cache this)) ->
  ~ In key (JsMap.keys (cache (step now c this))).
Proof.
  intros Hc Hout. destruct c as [k v ttl|k|]; cbn [step].
  - assert (k <> key) by (intros ->; now apply (Hc v ttl)).
    destruct (Z_lt_le_dec (JsMap.size (cache this)) (maxSize this)).
    + rewrite cache_set_room by assumption. rewrite in_keys_set.
      intros [Heq|Hin]; [congruence | tauto].
    + rewrite cache_set_full by assumption.
      rewrite in_keys_set, in_keys_delete.
      intros [Heq|[_ Hin]]; [congruence | tauto].
  - unfold Cache.get. destruct (JsMap.get k (cache this)) as [data|]; simpl.
    + destruct (now >? expiry data); simpl; auto.
      rewrite in_keys_delete. tauto.
    + exact Hout.
  - intros [].
Qed.

Lemma absent_run calls this key :
  (forall now v ttl, ~ In (now, Put key v ttl) calls) ->
  ~ In key (JsMap.keys (cache this)) ->
  ~ In key (JsMap.keys (cache (run calls this))).
Proof.
  revert this. induction calls as [|[now c] rest IH]; simpl; intros this Hc Hout.
  - exact Hout.
  - apply IH.
    + intros t v ttl Hin. apply (Hc t v ttl). now right.
    + apply absent_step; [|exact Hout].
      intros v ttl ->. apply (Hc now v ttl). now left.
Qed.

End CacheFacts.

(** ** Properties of the cache *)

Section CacheProperties.
Import JsMapFacts.
Import Cache.

(** *** Size bound *)

(** C3. A cache built with a positive capacity never stores more than
    [capacity] entries: the bound holds before the first call and after
    every call of any sequence of put, get and clear calls, whatever the
    clock readings. *)
Theorem size_within_capacity :
  forall (capacity : Z) (calls : list (Z * call)) (this : Cache.t),
    0 < capacity ->
    Cache.new (Some capacity) = Normal this ->
    Forall (fun c => JsMap.size (cache c) <= capacity) (history calls this).
Proof.
  intros capacity calls this Hpos [= <-].
  pose proof (size_history_bound calls
    {| cache := JsMap.empty; maxSize := capacity |}) as Hall.
  cbn [maxSize cache or_default] in *.
  replace (Z.max 1 capacity) with capacity in Hall by lia.
  apply Hall. unfold JsMap.size. simpl. lia.
Qed.

Lemma size_within_capacity_witness :
  Forall (fun c => JsMap.size (cache c) <= 2)
    (history [(0, Put (JStr "a") (JNum 1) None);
              (1, Put (JStr "b") (JNum 2) (Some 10));
              (2, Put (JStr "c") (JNum 3) None);
              (50, Get (JStr "b"));
              (51, Clear)]
       {| cache := JsMap.empty; maxSize := 2 |}).
Proof.
  apply (size_within_capacity 2); [lia | reflexivity].
Defined.

(** *** Expiry *)

(** C5, as the code has it.  [get] answers [null] whenever the entry's
    expiry timestamp is strictly before the clock reading; when the clock
    reads exactly the expiry timestamp the stored value is still returned.
    An entry put with [ttl = 0] is therefore expired for every read made
    at a later clock reading than the put. *)
Theorem get_null_once_expiry_passed :
  (forall this key now data,
     JsMap.get key (cache this) = Some data ->
     expiry data < now ->
     fst (Cache.get key now this) = JNull)
  /\ (forall this key now data,
     JsMap.get key (cache this) = Some data ->
     expiry data = now ->
     fst (Cache.get key now this) = value data)
  /\ (forall this key value t now,
     t < now ->
     fst (Cache.get key now (Cache.set key value (Some 0) t this)) = JNull).
Proof.
  split; [|split].
  - intros this key now data Hget Hlt.
    now rewrite (get_expired key now this data).
  - intros this key now data Hget Heq.
    rewrite (get_live key now this data); [reflexivity | assumption | lia].
  - intros this key value t now Hlt.
    rewrite (get_expired key now _ _ (get_after_set key value (Some 0) t this)).
    + reflexivity.
    + simpl. lia.
Qed.

Lemma get_null_once_expiry_passed_witness :
  fst (Cache.get (JStr "x") 1001
         (Cache.set (JStr "x") (JStr "v") (Some 0) 1000
            {| cache := JsMap.empty; maxSize := 5 |})) = JNull.
Proof.
  apply (proj2 (proj2 get_null_once_expiry_passed)). lia.
Defined.

(** C5 as stated fails when the clock reads exactly the expiry timestamp:
    an entry put with [ttl = 0] and read at the same clock reading is
    returned. *)
Lemma get_at_expiry_instant_not_null :
  ~ (forall this key now data,
       JsMap.get key (cache this) = Some data ->
       expiry data <= now ->
       fst (Cache.get key now this) = JNull).
Proof.
  intros H.
  specialize (H (Cache.set (JStr "x") (JStr "v") (Some 0) 1000
                   {| cache := JsMap.empty; maxSize := 5 |})
                (JStr "x") 1000 (mkEntry (JStr "v") 1000)).
  cbv in H. specialize (H eq_refl). 
  assert (Hf : JStr "v" = JNull) by (apply H; discriminate).
  discriminate Hf.
Qed.

(** C7. A [get] on a key whose entry has expired (its expiry timestamp is
    before the clock reading) answers [null] and deletes the entry: the key
    is not among the stored keys afterwards, looking it up finds nothing,
    the other entries are untouched, and the key stays out of the store
    through any later calls until it is put again. *)
Theorem get_expired_deletes_entry :
  forall this key now data,
    JsMap.get key (cache this) = Some data ->
    expiry data < now ->
    fst (Cache.get key now this) = JNull
    /\ ~ In key (JsMap.keys (cache (snd (Cache.get key now this))))
    /\ JsMap.get key (cache (snd (Cache.get key now this))) = None
    /\ (forall k, k <> key ->
          JsMap.get k (cache (snd (Cache.get key now this)))
          = JsMap.get k (cache this))
    /\ (forall calls,
          (forall t v ttl, ~ In (t, Put key v ttl) calls) ->
          ~ In key
              (JsMap.keys
                 (cache (run calls (snd (Cache.get key now this)))))).
Proof.
  intros this key now data Hget Hlt.
  rewrite (get_expired key now this data Hget Hlt). cbn [fst snd].
  assert (Hout : ~ In key
            (JsMap.keys
               (cache (with_cache (JsMap.delete key (cache this)) this)))).
  { cbn [cache with_cache]. rewrite in_keys_delete. tauto. }
  repeat split.
  - exact Hout.
  - cbn [cache with_cache]. apply get_delete_same.
  - intros k Hne. cbn [cache with_cache]. now apply get_delete_other.
  - intros calls Hcalls. now apply absent_run.
Qed.

Lemma get_expired_deletes_entry_witness :
  fst (Cache.get (JStr "x") 7
         {| cache := [(JStr "x", mkEntry (JNum 1) 5)]; maxSize := 3 |})
  = JNull.
Proof.
  apply (get_expired_deletes_entry
           {| cache := [(JStr "x", mkEntry (JNum 1) 5)]; maxSize := 3 |}
           (JStr "x") 7 (mkEntry (JNum 1) 5)); [reflexivity | simpl; lia].
Defined.

(** *** Clearing *)

(** C8. After [clear] the store is empty, and a [get] on any key, at any
    clock reading, answers [null]. *)
Theorem clear_then_get_null :
  forall this key now,
    cache (Cache.clear this) = []
    /\ JsMap.size (cache (Cache.clear this)) = 0
    /\ fst (Cache.get key now (Cache.clear this)) = JNull.
Proof.
  intros this key now. repeat split.
Qed.

(** *** Defaults *)

(** C9. A put without a [ttl] argument stores the entry with expiry
    [now + 60000], exactly as a put with [ttl = 60000] does, and a cache
    constructed without a capacity argument has capacity 100. *)
Theorem default_ttl_and_capacity :
  (forall key value now this,
     JsMap.get key (cache (Cache.set key value None now this))
     = Some (mkEntry value (now + 60000))
     /\ Cache.set key value None now this
        = Cache.set key value (Some 60000) now this)
  /\ Cache.new None = Normal {| cache := JsMap.empty; maxSize := 100 |}
  /\ Cache.new None = Cache.new (Some 100).
Proof.
  split; [|split; reflexivity].
  intros key value now this. split; [|reflexivity].
  apply (get_after_set key value None now this).
Qed.

(** *** Stored null *)

(** C10. A key stored with the value [null] and not expired reads as
    [null], which is also what a key that is not stored and a key whose
    entry has expired read as: the three results coincide. *)
Theorem stored_null_reads_as_absent :
  forall this key other now data,
    JsMap.get key (cache this) = Some data ->
    value data = JNull ->
    now <= expiry data ->
    JsMap.get other (cache this) = None ->
    fst (Cache.get key now this) = JNull
    /\ fst (Cache.get other now this) = JNull
    /\ fst (Cache.get key now this) = fst (Cache.get other now this)
    /\ (forall later, expiry data < later ->
          fst (Cache.get key later this) = fst (Cache.get key now this)).
Proof.
  intros this key other now data Hget Hnull Hle Hother.
  rewrite (get_live key now this data Hget Hle).
  rewrite (get_absent other now this Hother). cbn [fst].
  repeat split; try assumption.
  intros later Hlater.
  now rewrite (get_expired key later this data Hget Hlater).
Qed.

Lemma stored_null_reads_as_absent_witness :
  fst (Cache.get (JStr "k") 10
         (Cache.set (JStr "k") JNull (Some 5) 8
            {| cache := JsMap.empty; maxSize := 4 |}))
  = fst (Cache.get (JStr "never")  10
         (Cache.set (JStr "k") JNull (Some 5) 8
            {| cache := JsMap.empty; maxSize := 4 |})).
Proof.
  assert (Hlive : 10 <= expiry (mkEntry JNull 13)) by (simpl; lia).
  exact (proj1 (proj2 (proj2
    (stored_null_reads_as_absent
       (Cache.set (JStr "k") JNull (Some 5) 8
          {| cache := JsMap.empty; maxSize := 4 |})
       (JStr "k") (JStr "never") 10 (mkEntry JNull 13)
       eq_refl eq_refl Hlive eq_refl)))).
Defined.

(** *** Eviction *)

Lemma maxSize_run calls this : maxSize (run calls this) = maxSize this.
Proof.
  revert this. induction calls as [|[now c] rest IH]; simpl; intros this.
  - reflexivity.
  - rewrite IH. apply maxSize_step.
Qed.

(** A put on a full store drops the oldest entry first, whatever the key. *)
Lemma cache_set_full_wf key value ttl now this k0 e0 rest :
  Cache.wf this ->
  cache this = (k0, e0) :: rest ->
  maxSize this <= JsMap.size (cache this) ->
  cache (Cache.set key value ttl now this)
  = JsMap.set key (mkEntry value (now + or_default default_ttl ttl)) rest.
Proof.
  intros Hwf Hm Hfull.
  rewrite cache_set_full by assumption.
  unfold Cache.wf in Hwf. rewrite Hm in *.
  now rewrite delete_first_key_wf.
Qed.

(** C4. A put of a key that is not stored, into a cache of positive
    capacity holding exactly [capacity] entries, removes exactly the oldest
    entry (the head of the insertion order), whatever the expiry timestamps
    are, keeps every other entry in its place and appends the new one.
    In particular, with capacity 2, after put("a",1,1000), put("b",2,1000)
    and put("c",3,1000), get("a") answers null while get("b") answers 2 and
    get("c") answers 3 (read before their expiry). *)
Theorem put_new_key_when_full_evicts_oldest :
  (forall this key value ttl now,
     Cache.wf this ->
     0 < maxSize this ->
     JsMap.size (cache this) = maxSize this ->
     JsMap.get key (cache this) = None ->
     exists k0 e0 rest,
       cache this = (k0, e0) :: rest
       /\ cache (Cache.set key value ttl now this)
          = rest ++ [(key, mkEntry value (now + or_default default_ttl ttl))]
       /\ JsMap.get k0 (cache (Cache.set key value ttl now this)) = None
       /\ (forall k, k <> k0 -> k <> key ->
             JsMap.get k (cache (Cache.set key value ttl now this))
             = JsMap.get k (cache this)))
  /\ (forall this t1 t2 t3 ta tb tc,
     Cache.new (Some 2) = Normal this ->
     tb <= t2 + 1000 ->
     tc <= t3 + 1000 ->
     let c3 := run [(t1, Put (JStr "a") (JNum 1) (Some 1000));
                    (t2, Put (JStr "b") (JNum 2) (Some 1000));
                    (t3, Put (JStr "c") (JNum 3) (Some 1000))] this in
     let ca := snd (Cache.get (JStr "a") ta c3) in
     let cb := snd (Cache.get (JStr "b") tb ca) in
     fst (Cache.get (JStr "a") ta c3) = JNull
     /\ fst (Cache.get (JStr "b") tb ca) = JNum 2
     /\ fst (Cache.get (JStr "c") tc cb) = JNum 3).
Proof.
  split.
  - intros this key value ttl now Hwf Hpos Hfull Hnew.
    destruct (cache this) as [|[k0 e0] rest] eqn:Hm.
    { unfold JsMap.size in Hfull. simpl in Hfull. lia. }
    assert (Hwf' : JsMap.wf ((k0, e0) :: rest))
      by (unfold Cache.wf in Hwf; now rewrite Hm in Hwf).
    assert (Hk0 : ~ In k0 (JsMap.keys rest))
      by (unfold JsMap.wf in Hwf'; simpl in Hwf'; now inversion Hwf').
    assert (Hkey : ~ In key (JsMap.keys rest)).
    { apply get_None_iff in Hnew. simpl in Hnew. tauto. }
    assert (Hne : key <> k0).
    { intros ->. simpl in Hnew.
      destruct (js_value_eq_dec k0 k0); congruence. }
    assert (Hafter :
      cache (Cache.set key value ttl now this)
      = rest ++ [(key, mkEntry value (now + or_default default_ttl ttl))]).
    { rewrite (cache_set_full_wf key value ttl now this k0 e0 rest);
        try assumption; [|rewrite Hm; lia].
      now apply set_absent. }
    exists k0, e0, rest. repeat split.
    + exact Hafter.
    + rewrite Hafter. apply get_None_iff.
      unfold JsMap.keys. rewrite map_app, in_app_iff. simpl.
      intros [Hin|[Heq|[]]]; [now apply Hk0 | congruence].
    + intros k Hk0ne Hkne. rewrite Hafter, <- (set_absent key _ rest Hkey).
      rewrite get_set_other by assumption. simpl.
      destruct (js_value_eq_dec k k0); congruence.
  - intros this t1 t2 t3 ta tb tc [= <-] Hb Hc. cbv zeta.
    cbn. unfold Cache.get. cbn.
    destruct (Z.gtb_spec tb (t2 + 1000)); [lia|]. cbn.
    destruct (Z.gtb_spec tc (t3 + 1000)); [lia|]. cbn.
    repeat split.
Qed.

Lemma put_new_key_when_full_evicts_oldest_witness :
  exists k0 e0 rest,
    [(JStr "a", mkEntry (JNum 1) 1000); (JStr "b", mkEntry (JNum 2) 9)]
    = (k0, e0) :: rest
    /\ cache (Cache.set (JStr "c") (JNum 3) (Some 1000) 0
                {| cache := [(JStr "a", mkEntry (JNum 1) 1000);
                             (JStr "b", mkEntry (JNum 2) 9)];
                   maxSize := 2 |})
       = rest ++ [(JStr "c", mkEntry (JNum 3) (0 + 1000))].
Proof.
  assert (Hwf : Cache.wf {| cache := [(JStr "a", mkEntry (JNum 1) 1000);
                                      (JStr "b", mkEntry (JNum 2) 9)];
                            maxSize := 2 |}).
  { repeat constructor; simpl; intuition discriminate. }
  assert (Hpos : 0 < 2) by lia.
  destruct (proj1 put_new_key_when_full_evicts_oldest
              {| cache := [(JStr "a", mkEntry (JNum 1) 1000);
                           (JStr "b", mkEntry (JNum 2) 9)];
                 maxSize := 2 |}
              (JStr "c") (JNum 3) (Some 1000) 0 Hwf Hpos eq_refl eq_refl)
    as (k0 & e0 & rest & Hm & Hafter & _).
  exists k0, e0, rest. split; [exact Hm | exact Hafter].
Defined.

(** *** Construction *)

(** With a capacity of zero or less the size test of [set] always fires,
    so a put leaves exactly the entry it wrote. *)
Lemma cache_set_nonpositive key value ttl now this :
  Cache.wf this ->
  maxSize this <= 0 ->
  JsMap.size (cache this) <= 1 ->
  cache (Cache.set key value ttl now this)
  = [(key, mkEntry value (now + or_default default_ttl ttl))].
Proof.
  intros Hwf Hcap Hsize.
  pose proof (size_nonneg (cache this)) as Hnn.
  destruct (cache this) as [|[k0 e0] rest] eqn:Hm.
  - rewrite cache_set_full by (rewrite Hm; lia). now rewrite Hm.
  - rewrite (cache_set_full_wf key value ttl now this k0 e0 rest);
      try assumption; [|rewrite Hm; lia].
    destruct rest as [|p rest']; [reflexivity|].
    unfold JsMap.size in Hsize. simpl in Hsize. lia.
Qed.

(** C6, as the code has it.  Constructing a cache with a capacity of zero
    or a negative capacity is not rejected: the constructor completes
    normally with an empty store and the given capacity.  The resulting
    cache holds at most one entry at any time, and after each put the store
    consists of exactly the entry just put. *)
Theorem nonpositive_capacity_is_accepted :
  forall capacity,
    capacity <= 0 ->
    exists this,
      Cache.new (Some capacity) = Normal this
      /\ cache this = []
      /\ maxSize this = capacity
      /\ (forall calls,
            Forall (fun c => JsMap.size (cache c) <= 1) (history calls this))
      /\ (forall calls key value ttl now,
            cache (Cache.set key value ttl now (run calls this))
            = [(key, mkEntry value (now + or_default default_ttl ttl))]).
Proof.
  intros capacity Hcap.
  exists {| cache := JsMap.empty; maxSize := capacity |}.
  assert (Hhist : forall calls,
    Forall (fun c => JsMap.size (cache c) <= 1)
      (history calls {| cache := JsMap.empty; maxSize := capacity |})).
  { intros calls.
    pose proof (size_history_bound calls
      {| cache := JsMap.empty; maxSize := capacity |}) as Hall.
    cbn [maxSize cache] in Hall.
    replace (Z.max 1 capacity) with 1 in Hall by lia.
    apply Hall. unfold JsMap.size. simpl. lia. }
  repeat split.
  - exact Hhist.
  - intros calls key value ttl now.
    apply cache_set_nonpositive.
    + apply wf_run. constructor.
    + rewrite maxSize_run. exact Hcap.
    + specialize (Hhist calls). rewrite Forall_forall in Hhist.
      apply Hhist, run_in_history.
Qed.

Lemma nonpositive_capacity_is_accepted_witness :
  exists this, Cache.new (Some (-3)) = Normal this /\ cache this = [].
Proof.
  assert (Hcap : -3 <= 0) by lia.
  destruct (nonpositive_capacity_is_accepted (-3) Hcap)
    as (this & Hnew & Hempty & _).
  exists this. split; [exact Hnew | exact Hempty].
Defined.

(** C6 as stated fails: constructing with capacity 0 throws nothing. *)
Lemma zero_capacity_not_rejected :
  ~ (forall capacity,
       capacity <= 0 -> exists exn, Cache.new (Some capacity) = Throw exn).
Proof.
  intros H. destruct (H 0) as [exn Hthrow]; [lia|]. discriminate Hthrow.
Qed.

(** *** Overwriting a stored key when the store is full *)

(** A put of a stored key into a full store still drops the oldest entry:
    when the key is the oldest one it is removed and written again at the
    end of the insertion order, otherwise the oldest entry is lost and the
    store shrinks by one. *)
Lemma overwrite_when_full this key value ttl now k0 e0 rest :
  Cache.wf this ->
  cache this = (k0, e0) :: rest ->
  maxSize this <= JsMap.size (cache this) ->
  (key = k0 ->
     cache (Cache.set key value ttl now this)
     = rest ++ [(key, mkEntry value (now + or_default default_ttl ttl))])
  /\ (key <> k0 -> In key (JsMap.keys rest) ->
     JsMap.get k0 (cache (Cache.set key value ttl now this)) = None
     /\ JsMap.size (cache (Cache.set key value ttl now this))
        = JsMap.size (cache this) - 1).
Proof.
  intros Hwf Hm Hfull.
  rewrite (cache_set_full_wf key value ttl now this k0 e0 rest)
    by assumption.
  assert (Hk0 : ~ In k0 (JsMap.keys rest)).
  { unfold Cache.wf, JsMap.wf in Hwf. rewrite Hm in Hwf. simpl in Hwf.
    now inversion Hwf. }
  split.
  - intros ->. now apply set_absent.
  - intros Hne Hin. split.
    + rewrite get_set_other by congruence. now apply get_None_iff.
    + rewrite Hm. unfold JsMap.size.
      rewrite (length_set_present key _ rest Hin). simpl List.length. lia.
Qed.

(** The scenario of the specification with capacity 1: put("k",1,5000)
    then put("k",2,5000); get("k") answers 2 and the store holds one
    entry.  Here the overwritten key is itself the oldest entry. *)
Lemma overwrite_capacity_one :
  forall this t1 t2 now,
    Cache.new (Some 1) = Normal this ->
    now <= t2 + 5000 ->
    let c2 := run [(t1, Put (JStr "k") (JNum 1) (Some 5000));
                   (t2, Put (JStr "k") (JNum 2) (Some 5000))] this in
    fst (Cache.get (JStr "k") now c2) = JNum 2
    /\ JsMap.size (cache c2) = 1.
Proof.
  intros this t1 t2 now [= <-] Hlive. cbv zeta. cbn.
  unfold Cache.get. cbn.
  destruct (Z.gtb_spec now (t2 + 5000)); [lia|]. split; reflexivity.
Qed.

(** C2 at capacity 2.  After put("a",1,5000) and put("b",2,5000) the store
    is full and holds "b"; put("b",3,5000) then overwrites "b" and also
    evicts "a": the store is left with one entry and get("a") answers
    null although "a" has not expired.  Overwriting the oldest key "a"
    instead moves it behind "b" in the insertion order. *)
Theorem overwrite_when_full_evicts_oldest :
  let full := run [(0, Put (JStr "a") (JNum 1) (Some 5000));
                   (0, Put (JStr "b") (JNum 2) (Some 5000))]
                  {| cache := JsMap.empty; maxSize := 2 |} in
  let after := Cache.set (JStr "b") (JNum 3) (Some 5000) 0 full in
  Cache.new (Some 2) = Normal {| cache := JsMap.empty; maxSize := 2 |}
  /\ JsMap.size (cache full) = maxSize full
  /\ JsMap.get (JStr "b") (cache full) = Some (mkEntry (JNum 2) 5000)
  /\ JsMap.get (JStr "a") (cache full) = Some (mkEntry (JNum 1) 5000)
  /\ cache after = [(JStr "b", mkEntry (JNum 3) 5000)]
  /\ JsMap.size (cache after) = 1
  /\ fst (Cache.get (JStr "a") 0 after) = JNull
  /\ fst (Cache.get (JStr "b") 0 after) = JNum 3
  /\ JsMap.keys (cache full) = [JStr "a"; JStr "b"]
  /\ JsMap.keys (cache (Cache.set (JStr "a") (JNum 9) (Some 5000) 0 full))
     = [JStr "b"; JStr "a"].
Proof.
  cbv zeta. repeat split.
Qed.

(** C1 at capacity 2, with two distinct keys.  After put("a",1,5000),
    put("b",2,5000) and put("b",3,5000), all at clock reading 0, a
    get("a") at clock reading 1 answers null, although the last value put
    under "a" is 1 and its expiry timestamp 5000 is far ahead. *)
Theorem latest_put_lost_within_capacity :
  let calls := [(0, Put (JStr "a") (JNum 1) (Some 5000));
                (0, Put (JStr "b") (JNum 2) (Some 5000));
                (0, Put (JStr "b") (JNum 3) (Some 5000))] in
  let this := {| cache := JsMap.empty; maxSize := 2 |} in
  Cache.new (Some 2) = Normal this
  /\ fst (Cache.get (JStr "a") 1 (run calls this)) = JNull
  /\ fst (Cache.get (JStr "a") 1
            (run [(0, Put (JStr "a") (JNum 1) (Some 5000));
                  (0, Put (JStr "b") (JNum 2) (Some 5000))] this))
     = JNum 1
  /\ fst (Cache.get (JStr "b") 1 (run calls this)) = JNum 3.
Proof.
  cbv zeta. repeat split.
Qed.

(** *** Reading back the latest put, below capacity *)

Lemma stored_keys_step ks now c this :
  (forall key, put_key c = Some key -> In key ks) ->
  incl (JsMap.keys (cache this)) ks ->
  incl (JsMap.keys (cache (step now c this))) ks.
Proof.
  intros Hc Hincl k. destruct c as [key value ttl|key|]; cbn [step].
  - destruct (Z_lt_le_dec (JsMap.size (cache this)) (maxSize this)).
    + rewrite cache_set_room by assumption. rewrite in_keys_set.
      intros [->|Hin]; [now apply Hc | now apply Hincl].
    + rewrite cache_set_full by assumption.
      rewrite in_keys_set, in_keys_delete.
      intros [->|[_ Hin]]; [now apply Hc | now apply Hincl].
  - unfold Cache.get. destruct (JsMap.get key (cache this)) as [data|]; simpl.
    + destruct (now >? expiry data); simpl; [|apply Hincl].
      rewrite in_keys_delete. intros [_ Hin]. now apply Hincl.
    + apply Hincl.
  - intros [].
Qed.

Lemma stored_keys_run ks calls this :
  puts_within ks calls ->
  incl (JsMap.keys (cache this)) ks ->
  incl (JsMap.keys (cache (run calls this))) ks.
Proof.
  revert this. induction calls as [|[now c] rest IH]; simpl; intros this Hp Hi.
  - exact Hi.
  - apply IH.
    + intros t c' key Hin. apply (Hp t c' key). now right.
    + apply stored_keys_step; [|exact Hi].
      intros key. apply (Hp now c key). now left.
Qed.

Lemma size_le_keys ks this :
  Cache.wf this ->
  incl (JsMap.keys (cache this)) ks ->
  JsMap.size (cache this) <= Z.of_nat (List.length ks).
Proof.
  intros Hwf Hincl. unfold JsMap.size.
  pose proof (NoDup_incl_length Hwf Hincl) as Hlen.
  unfold JsMap.keys in Hlen. rewrite length_map in Hlen. lia.
Qed.

(** A live entry survives a call that neither clears the store nor puts
    its key, as long as the store cannot fill up. *)
Lemma live_entry_step ks now c this key data :
  Cache.wf this ->
  incl (JsMap.keys (cache this)) ks ->
  Z.of_nat (List.length ks) < maxSize this ->
  c <> Clear ->
  put_key c <> Some key ->
  now <= expiry data ->
  JsMap.get key (cache this) = Some data ->
  JsMap.get key (cache (step now c this)) = Some data.
Proof.
  intros Hwf Hincl Hroom Hclear Hput Hlive Hget.
  pose proof (size_le_keys ks this Hwf Hincl) as Hsize.
  destruct c as [k v ttl|k|]; cbn [step]; [| |congruence].
  - rewrite cache_set_room by lia.
    rewrite get_set_other; [exact Hget|].
    intros ->. now apply Hput.
  - destruct (js_value_eq_dec k key) as [->|Hne].
    + now rewrite (get_live key now this data Hget Hlive).
    + unfold Cache.get. destruct (JsMap.get k (cache this)) as [d|]; simpl.
      * destruct (now >? expiry d); simpl; [|exact Hget].
        rewrite get_delete_other by congruence. exact Hget.
      * exact Hget.
Qed.

Lemma live_entry_run ks calls this key data :
  Cache.wf this ->
  incl (JsMap.keys (cache this)) ks ->
  Z.of_nat (List.length ks) < maxSize this ->
  puts_within ks calls ->
  (forall t c, In (t, c) calls ->
     c <> Clear /\ put_key c <> Some key /\ t <= expiry data) ->
  JsMap.get key (cache this) = Some data ->
  JsMap.get key (cache (run calls this)) = Some data.
Proof.
  revert this.
  induction calls as [|[now c] rest IH]; simpl;
    intros this Hwf Hincl Hroom Hp Hcalls Hget.
  - exact Hget.
  - destruct (Hcalls now c (or_introl eq_refl)) as (Hclear & Hput & Hlive).
    apply IH.
    + now apply wf_step.
    + apply stored_keys_step; [|exact Hincl].
      intros k. apply (Hp now c k). now left.
    + now rewrite maxSize_step.
    + intros t c' k Hin. apply (Hp t c' k). now right.
    + intros t c' Hin. apply Hcalls. now right.
    + now apply (live_entry_step ks).
Qed.

(** When the puts of a sequence use fewer keys than the capacity, the
    store never fills up, nothing is evicted, and a get returns the value
    of the latest put of its key while that put's expiry timestamp has not
    been passed.  Clock readings do not go backwards past the get: every
    call after the put is made at or before the reading of the get. *)
Lemma latest_put_read_below_capacity :
  forall capacity this ks before after t0 key value ttl now,
    Cache.new capacity = Normal this ->
    puts_within ks (before ++ (t0, Put key value ttl) :: after) ->
    Z.of_nat (List.length ks) < maxSize this ->
    (forall t c, In (t, c) after ->
       c <> Clear /\ put_key c <> Some key /\ t <= now) ->
    now <= t0 + or_default default_ttl ttl ->
    Cache.get key now (run (before ++ (t0, Put key value ttl) :: after) this)
    = (value, run (before ++ (t0, Put key value ttl) :: after) this).
Proof.
  intros capacity this ks before after t0 key value ttl now
    Hnew Hp Hroom Hafter Hlive.
  assert (Hrun : forall xs ys c, run (xs ++ ys) c = run ys (run xs c)).
  { induction xs as [|[t c'] xs IH]; simpl; intros ys c;
      [reflexivity | apply IH]. }
  rewrite Hrun. simpl run.
  set (c1 := run before this).
  assert (Hwf1 : Cache.wf c1) by (apply wf_run, (wf_new capacity), Hnew).
  assert (Hincl1 : incl (JsMap.keys (cache c1)) ks).
  { apply stored_keys_run.
    - intros t c k Hin. apply (Hp t c k), in_or_app. now left.
    - injection Hnew as <-. intros k [].  }
  assert (Hmax1 : maxSize c1 = maxSize this) by apply maxSize_run.
  set (c2 := step t0 (Put key value ttl) c1).
  assert (Hp2 : forall k, put_key (Put key value ttl) = Some k -> In k ks).
  { intros k. apply (Hp t0 (Put key value ttl) k), in_or_app.
    right. now left. }
  pose proof (get_live key now (run after c2)
    (mkEntry value (t0 + or_default default_ttl ttl))) as Hread.
  cbn [Cache.value expiry] in Hread. apply Hread; [|exact Hlive].
  apply (live_entry_run ks).
  - now apply wf_step.
  - now apply stored_keys_step.
  - unfold c2. rewrite maxSize_step. lia.
  - intros t c k Hin. apply (Hp t c k), in_or_app. right. now right.
  - intros t c Hin. destruct (Hafter t c Hin) as (Hc & Hk & Ht).
    cbn [expiry]. repeat split; try assumption. lia.
  - apply get_after_set.
Qed.

End CacheProperties.

(** ** Properties of the Map utilities *)

Section MapUtilsFacts.
Import JsMapFacts.
Import MapUtils.

(** Setting a list of pairs with distinct keys, none of them stored yet,
    appends the pairs in order. *)
Lemma set_all_fresh {E : Type} (l acc : JsMap.t E) :
  JsMap.wf (acc ++ l) ->
  fold_left (fun m kv => JsMap.set (fst kv) (snd kv) m) l acc = acc ++ l.
Proof.
  revert acc. induction l as [|[k e] rest IH]; intros acc Hwf; simpl.
  - now rewrite app_nil_r.
  - assert (Hk : ~ In k (JsMap.keys acc)).
    { unfold JsMap.wf, JsMap.keys in Hwf. rewrite map_app in Hwf. simpl in Hwf.
      apply NoDup_remove_2 in Hwf. rewrite in_app_iff in Hwf.
      unfold JsMap.keys. tauto. }
    rewrite (set_absent k e acc Hk).
    rewrite IH; rewrite <- app_assoc; [reflexivity | exact Hwf].
Qed.

(** Rebuilding a Map from its own entries gives the same Map. *)
Lemma from_entries_wf {E : Type} (m : JsMap.t E) :
  JsMap.wf m -> from_entries m = m.
Proof.
  intros Hwf. unfold from_entries. now rewrite set_all_fresh.
Qed.

Lemma wf_fold_set {E : Type} (l acc : JsMap.t E) :
  JsMap.wf acc ->
  JsMap.wf (fold_left (fun m kv => JsMap.set (fst kv) (snd kv) m) l acc).
Proof.
  revert acc. induction l as [|[k e] rest IH]; intros acc Hwf; simpl.
  - exact Hwf.
  - apply IH. now apply wf_set.
Qed.

(** Lookup after setting the entries of a Map over another one. *)
Lemma get_fold_set {E : Type} (l acc : JsMap.t E) k :
  JsMap.wf l ->
  JsMap.get k (fold_left (fun m kv => JsMap.set (fst kv) (snd kv) m) l acc)
  = match JsMap.get k l with
    | Some e => Some e
    | None => JsMap.get k acc
    end.
Proof.
  revert acc. induction l as [|[k0 e0] rest IH]; intros acc Hwf; simpl.
  - reflexivity.
  - unfold JsMap.wf in Hwf. simpl in Hwf. inversion Hwf as [|? ? Hk0 Hrest]; subst.
    rewrite IH by exact Hrest.
    destruct (js_value_eq_dec k k0) as [->|Hne].
    + apply get_None_iff in Hk0. rewrite Hk0. apply get_set_same.
    + now rewrite get_set_other.
Qed.

(** Key order after setting the entries of a Map over another one: the
    keys already stored keep their place, the new ones follow. *)
Lemma keys_fold_set {E : Type} (l acc : JsMap.t E) :
  JsMap.wf l ->
  JsMap.keys
    (fold_left (fun m kv => JsMap.set (fst kv) (snd kv) m) l acc)
  = JsMap.keys acc
    ++ filter (fun k => if in_dec js_value_eq_dec k (JsMap.keys acc)
                        then false else true)
         (JsMap.keys l).
Proof.
  revert acc. induction l as [|[k0 e0] rest IH]; intros acc Hwf; simpl.
  - now rewrite app_nil_r.
  - unfold JsMap.wf in Hwf. simpl in Hwf. inversion Hwf as [|? ? Hk0 Hrest]; subst.
    rewrite IH by exact Hrest.
    destruct (in_dec js_value_eq_dec k0 (JsMap.keys acc)) as [Hin|Hout].
    + rewrite (keys_set_present k0 e0 acc Hin). reflexivity.
    + rewrite (set_absent k0 e0 acc Hout).
      unfold JsMap.keys at 1. rewrite map_app. simpl. rewrite <- app_assoc.
      simpl. f_equal. f_equal.
      apply filter_ext_in. intros k Hk.
      destruct (in_dec js_value_eq_dec k (JsMap.keys (acc ++ [(k0, e0)])))
        as [Hin'|Hout'];
      destruct (in_dec js_value_eq_dec k (JsMap.keys acc)) as [Hin|Hout2];
        try reflexivity.
      * exfalso. unfold JsMap.keys in Hin'. rewrite map_app, in_app_iff in Hin'.
        simpl in Hin'. destruct Hin' as [H|[H|[]]]; [now apply Hout2|].
        subst. now apply Hk0.
      * exfalso. apply Hout'. unfold JsMap.keys. rewrite map_app, in_app_iff.
        now left.
Qed.

Lemma in_keys_filter {E : Type} (q : js_value * E -> bool) (m : JsMap.t E) k :
  In k (JsMap.keys (filter q m)) -> In k (JsMap.keys m).
Proof.
  unfold JsMap.keys. rewrite !in_map_iff.
  intros (kv & Hfst & Hin). apply filter_In in Hin. exists kv. tauto.
Qed.

Lemma wf_filter {E : Type} (q : js_value * E -> bool) (m : JsMap.t E) :
  JsMap.wf m -> JsMap.wf (filter q m).
Proof.
  unfold JsMap.wf.
  induction m as [|[k0 e0] rest IH]; simpl; intros Hnd.
  - constructor.
  - inversion Hnd as [|? ? Hk0 Hrest]; subst.
    destruct (q (k0, e0)); simpl; auto.
    constructor; auto.
    intros Hin. apply Hk0. exact (in_keys_filter q rest k0 Hin).
Qed.

Lemma get_filter {E : Type} (q : js_value * E -> bool) (m : JsMap.t E) k :
  JsMap.wf m ->
  JsMap.get k (filter q m)
  = match JsMap.get k m with
    | Some e => if q (k, e) then Some e else None
    | None => None
    end.
Proof.
  unfold JsMap.wf.
  induction m as [|[k0 e0] rest IH]; simpl; intros Hnd.
  - reflexivity.
  - inversion Hnd as [|? ? Hk0 Hrest]; subst.
    destruct (js_value_eq_dec k k0) as [->|Hne].
    + destruct (q (k0, e0)) eqn:Hq; simpl.
      * destruct (js_value_eq_dec k0 k0); congruence.
      * apply get_None_iff. intros Hin. apply Hk0.
        exact (in_keys_filter q rest k0 Hin).
    + destruct (q (k0, e0)); simpl.
      * destruct (js_value_eq_dec k k0); [congruence | now apply IH].
      * now apply IH.
Qed.

Lemma keys_map_values {E F : Type} (f : E -> F) (m : JsMap.t E) :
  JsMap.keys (map (fun kv => (fst kv, f (snd kv))) m) = JsMap.keys m.
Proof.
  unfold JsMap.keys. rewrite map_map. reflexivity.
Qed.

Lemma get_map_values {E F : Type} (f : E -> F) (m : JsMap.t E) k :
  JsMap.get k (map (fun kv => (fst kv, f (snd kv))) m)
  = option_map f (JsMap.get k m).
Proof.
  induction m as [|[k0 e0] rest IH]; simpl.
  - reflexivity.
  - destruct (js_value_eq_dec k k0); [reflexivity | exact IH].
Qed.

Lemma keys_indexed_from_lower {E : Type} (arr : list E) i k :
  In k (JsMap.keys (indexed_from i arr)) -> exists j, k = JNum j /\ i <= j.
Proof.
  revert i. induction arr as [|val rest IH]; simpl; intros i Hin.
  - destruct Hin.
  - destruct Hin as [<-|Hin].
    + exists i. split; [reflexivity | lia].
    + destruct (IH (i + 1) Hin) as (j & -> & Hj). exists j. split; [reflexivity | lia].
Qed.

Lemma wf_indexed_from {E : Type} (arr : list E) i :
  JsMap.wf (indexed_from i arr).
Proof.
  unfold JsMap.wf. revert i.
  induction arr as [|val rest IH]; simpl; intros i.
  - constructor.
  - constructor; [|apply IH].
    intros Hin. destruct (keys_indexed_from_lower rest (i + 1) _ Hin)
      as (j & [= <-] & Hj). lia.
Qed.

Lemma get_indexed_from {E : Type} (arr : list E) i j :
  JsMap.get (JNum j) (indexed_from i arr)
  = if j <? i then None else nth_error arr (Z.to_nat (j - i)).
Proof.
  revert i. induction arr as [|val rest IH]; intros i;
    cbn [indexed_from JsMap.get].
  - destruct (j <? i); [reflexivity|]. now destruct (Z.to_nat (j - i)).
  - destruct (js_value_eq_dec (JNum j) (JNum i)) as [Heq|Hne].
    + injection Heq as ->. rewrite Z.ltb_irrefl, Z.sub_diag. reflexivity.
    + assert (j <> i) by congruence.
      rewrite IH. destruct (Z.ltb_spec j i); destruct (Z.ltb_spec j (i + 1));
        try lia; try reflexivity.
      replace (Z.to_nat (j - i)) with (S (Z.to_nat (j - (i + 1)))) by lia.
      reflexivity.
Qed.

Lemma length_indexed_from {E : Type} (arr : list E) i :
  List.length (indexed_from i arr) = List.length arr.
Proof.
  revert i. induction arr as [|val rest IH]; simpl; intros i; [|rewrite IH];
    reflexivity.
Qed.

(** *** The reduction of [groupBy], from any Map built so far *)

Section GroupFold.
Context {A : Type} (keyFn : A -> js_value).

Let add_item (m : JsMap.t (list A)) (item : A) : JsMap.t (list A) :=
  let key := keyFn item in
  JsMap.set key
    (match JsMap.get key m with
     | Some group => group
     | None => []
     end ++ [item])
    m.

Let has_key (k : js_value) (item : A) : bool :=
  if js_value_eq_dec (keyFn item) k then true else false.

Lemma get_group_fold (arr : list A) (acc : JsMap.t (list A)) k :
  JsMap.get k (fold_left add_item arr acc)
  = match JsMap.get k acc, filter (has_key k) arr with
    | Some group, items => Some (group ++ items)
    | None, [] => None
    | None, items => Some items
    end.
Proof.
  revert acc. induction arr as [|x rest IH]; intros acc; simpl.
  - destruct (JsMap.get k acc); [now rewrite app_nil_r | reflexivity].
  - rewrite IH. unfold add_item at 1. cbv zeta.
    destruct (js_value_eq_dec (keyFn x) k) as [<-|Hne].
    + assert (Hk : has_key (keyFn x) x = true).
      { unfold has_key. destruct (js_value_eq_dec (keyFn x) (keyFn x));
          congruence. }
      rewrite Hk, get_set_same.
      destruct (JsMap.get (keyFn x) acc); now rewrite <- app_assoc.
    + assert (Hk : has_key k x = false).
      { unfold has_key. destruct (js_value_eq_dec (keyFn x) k); congruence. }
      rewrite Hk, get_set_other by congruence. reflexivity.
Qed.

Lemma wf_group_fold (arr : list A) (acc : JsMap.t (list A)) :
  JsMap.wf acc -> JsMap.wf (fold_left add_item arr acc).
Proof.
  revert acc. induction arr as [|x rest IH]; intros acc Hwf; simpl.
  - exact Hwf.
  - apply IH. unfold add_item. now apply wf_set.
Qed.

Lemma grouped_items_set (m : JsMap.t (list A)) k (group : list A) :
  (grouped_items (JsMap.set k group m)
   + List.length (match JsMap.get k m with Some g => g | None => [] end)
   = grouped_items m + List.length group)%nat.
Proof.
  unfold grouped_items.
  induction m as [|[k0 g0] rest IH]; simpl.
  - lia.
  - destruct (js_value_eq_dec k k0); simpl; lia.
Qed.

Lemma grouped_items_fold (arr : list A) (acc : JsMap.t (list A)) :
  grouped_items (fold_left add_item arr acc)
  = (grouped_items acc + List.length arr)%nat.
Proof.
  revert acc. induction arr as [|x rest IH]; intros acc; simpl.
  - lia.
  - rewrite IH. unfold add_item.
    pose proof (grouped_items_set acc (keyFn x)
      (match JsMap.get (keyFn x) acc with Some g => g | None => [] end
       ++ [x])) as Hset.
    rewrite length_app in Hset. simpl in Hset. lia.
Qed.

End GroupFold.

End MapUtilsFacts.

Section MapUtilsProperties.
Import JsMapFacts.
Import MapUtils.

(** X1. [mergeMaps] is right-biased: a key of the second Map reads as the
    second Map has it, any other key as the first Map has it. *)
Theorem mergeMaps_lookup {E : Type} (map1 map2 : JsMap.t E) :
  JsMap.wf map1 -> JsMap.wf map2 ->
  forall k,
    JsMap.get k (mergeMaps map1 map2)
    = match JsMap.get k map2 with
      | Some e => Some e
      | None => JsMap.get k map1
      end.
Proof.
  intros Hwf1 Hwf2 k. unfold mergeMaps, from_entries, entries.
  rewrite fold_left_app.
  fold (from_entries map1). rewrite (from_entries_wf map1 Hwf1).
  now apply get_fold_set.
Qed.

Lemma mergeMaps_lookup_witness :
  JsMap.get (JStr "b")
    (mergeMaps [(JStr "a", 1); (JStr "b", 2)] [(JStr "b", 20); (JStr "c", 30)])
  = Some 20.
Proof.
  assert (Hwf1 : JsMap.wf [(JStr "a", 1); (JStr "b", 2)]).
  { repeat constructor; simpl; intuition discriminate. }
  assert (Hwf2 : JsMap.wf [(JStr "b", 20); (JStr "c", 30)]).
  { repeat constructor; simpl; intuition discriminate. }
  exact (mergeMaps_lookup _ _ Hwf1 Hwf2 (JStr "b")).
Defined.

(** X2. In the Map [mergeMaps] returns, the keys of the first Map come
    first and keep their order, followed by the keys only the second Map
    has, in its order; so the keys are distinct and the size lies between
    the size of the first Map and the sum of both sizes. *)
Theorem mergeMaps_keys {E : Type} (map1 map2 : JsMap.t E) :
  JsMap.wf map1 -> JsMap.wf map2 ->
  JsMap.keys (mergeMaps map1 map2)
  = JsMap.keys map1
    ++ filter (fun k => if in_dec js_value_eq_dec k (JsMap.keys map1)
                        then false else true)
         (JsMap.keys map2)
  /\ JsMap.wf (mergeMaps map1 map2)
  /\ JsMap.size map1 <= JsMap.size (mergeMaps map1 map2)
     <= JsMap.size map1 + JsMap.size map2.
Proof.
  intros Hwf1 Hwf2.
  assert (Hmerge : mergeMaps map1 map2
    = fold_left (fun m kv => JsMap.set (fst kv) (snd kv) m) map2 map1).
  { unfold mergeMaps, from_entries, entries. rewrite fold_left_app.
    fold (from_entries map1). now rewrite (from_entries_wf map1 Hwf1). }
  assert (Hkeys := keys_fold_set map2 map1 Hwf2). rewrite <- Hmerge in Hkeys.
  split; [exact Hkeys|]. split.
  - rewrite Hmerge. now apply wf_fold_set.
  - assert (Hlen := f_equal (@List.length _) Hkeys).
    rewrite length_app in Hlen.
    pose proof (filter_length_le
      (fun k => if in_dec js_value_eq_dec k (JsMap.keys map1)
                then false else true) (JsMap.keys map2)) as Hle.
    unfold JsMap.keys in Hlen, Hle. rewrite !length_map in *.
    unfold JsMap.size. lia.
Qed.

Lemma mergeMaps_keys_witness :
  JsMap.keys
    (mergeMaps [(JStr "a", 1); (JStr "b", 2)] [(JStr "c", 30); (JStr "a", 10)])
  = [JStr "a"; JStr "b"; JStr "c"].
Proof.
  assert (Hwf1 : JsMap.wf [(JStr "a", 1); (JStr "b", 2)]).
  { repeat constructor; simpl; intuition discriminate. }
  assert (Hwf2 : JsMap.wf [(JStr "c", 30); (JStr "a", 10)]).
  { repeat constructor; simpl; intuition discriminate. }
  exact (proj1 (mergeMaps_keys _ _ Hwf1 Hwf2)).
Defined.

(** X3. [filterMap] keeps exactly the entries the predicate accepts, in
    their order: a key reads as before when the predicate accepts its
    entry and is absent otherwise. *)
Theorem filterMap_keeps_accepted {E : Type} (m : JsMap.t E)
    (predicate : js_value -> E -> bool) :
  JsMap.wf m ->
  filterMap m predicate
  = filter (fun kv => predicate (fst kv) (snd kv)) m
  /\ JsMap.wf (filterMap m predicate)
  /\ forall k,
       JsMap.get k (filterMap m predicate)
       = match JsMap.get k m with
         | Some e => if predicate k e then Some e else None
         | None => None
         end.
Proof.
  intros Hwf.
  assert (Heq : filterMap m predicate
                = filter (fun kv => predicate (fst kv) (snd kv)) m).
  { unfold filterMap, entries. apply from_entries_wf. now apply wf_filter. }
  rewrite Heq. split; [reflexivity|]. split.
  - now apply wf_filter.
  - intros k. now rewrite get_filter.
Qed.

Lemma filterMap_keeps_accepted_witness :
  filterMap [(JStr "a", 1); (JStr "b", 2); (JStr "c", 3)]
    (fun _ v => Z.odd v)
  = [(JStr "a", 1); (JStr "c", 3)].
Proof.
  assert (Hwf : JsMap.wf [(JStr "a", 1); (JStr "b", 2); (JStr "c", 3)]).
  { repeat constructor; simpl; intuition discriminate. }
  exact (proj1 (filterMap_keeps_accepted _ (fun _ v => Z.odd v) Hwf)).
Defined.

(** X4. [mapValues] keeps the keys, their order and the size, and a key
    reads as the transform of what it read before. *)
Theorem mapValues_transforms_values {E F : Type} (m : JsMap.t E)
    (transform : E -> F) :
  JsMap.wf m ->
  JsMap.keys (mapValues m transform) = JsMap.keys m
  /\ JsMap.size (mapValues m transform) = JsMap.size m
  /\ forall k,
       JsMap.get k (mapValues m transform)
       = option_map transform (JsMap.get k m).
Proof.
  intros Hwf.
  assert (Heq : mapValues m transform
                = map (fun kv => (fst kv, transform (snd kv))) m).
  { unfold mapValues, entries. apply from_entries_wf.
    unfold JsMap.wf. now rewrite keys_map_values. }
  rewrite Heq. split; [apply keys_map_values|]. split.
  - unfold JsMap.size. now rewrite length_map.
  - intros k. apply get_map_values.
Qed.

Lemma mapValues_transforms_values_witness :
  JsMap.get (JStr "b")
    (mapValues [(JStr "a", 1); (JStr "b", 2)] (fun v => v * 10))
  = Some 20.
Proof.
  assert (Hwf : JsMap.wf [(JStr "a", 1); (JStr "b", 2)]).
  { repeat constructor; simpl; intuition discriminate. }
  exact (proj2 (proj2
    (mapValues_transforms_values _ (fun v => v * 10) Hwf)) (JStr "b")).
Defined.

(** X5. [mapValues] composes: transforming twice is transforming once
    with the composed function, and the identity transform gives the same
    Map back. *)
Theorem mapValues_compose {E F G : Type} (m : JsMap.t E)
    (f : E -> F) (g : F -> G) :
  JsMap.wf m ->
  mapValues (mapValues m f) g = mapValues m (fun e => g (f e))
  /\ mapValues m (fun e => e) = m.
Proof.
  intros Hwf.
  assert (Hmap : forall (X Y : Type) (h : X -> Y) (x : JsMap.t X),
             JsMap.wf x ->
             mapValues x h = map (fun kv => (fst kv, h (snd kv))) x).
  { intros X Y h x Hx. unfold mapValues, entries. apply from_entries_wf.
    unfold JsMap.wf. now rewrite keys_map_values. }
  split.
  - rewrite (Hmap _ _ f m Hwf), (Hmap _ _ (fun e => g (f e)) m Hwf).
    rewrite Hmap by (unfold JsMap.wf; now rewrite keys_map_values).
    rewrite map_map. reflexivity.
  - rewrite (Hmap _ _ (fun e => e) m Hwf).
    rewrite <- (map_id m) at 2. apply map_ext. now intros [k e].
Qed.

Lemma mapValues_compose_witness :
  mapValues (mapValues [(JStr "a", 1); (JStr "b", 2)] (fun v => v + 1))
    (fun v => v * 10)
  = mapValues [(JStr "a", 1); (JStr "b", 2)] (fun v => (v + 1) * 10).
Proof.
  assert (Hwf : JsMap.wf [(JStr "a", 1); (JStr "b", 2)]).
  { repeat constructor; simpl; intuition discriminate. }
  exact (proj1 (mapValues_compose _ (fun v => v + 1) (fun v => v * 10) Hwf)).
Defined.

(** X6. [arrayToMap] stores the element at index [i] under the number
    [i]: a number key reads as the element at that index, or as nothing
    when it is negative or past the end, every other key reads as nothing,
    and the size is the length of the array. *)
Theorem arrayToMap_index_lookup {E : Type} (arr : list E) :
  JsMap.size (arrayToMap arr) = Z.of_nat (List.length arr)
  /\ JsMap.wf (arrayToMap arr)
  /\ (forall i, JsMap.get (JNum i) (arrayToMap arr)
                = if i <? 0 then None else nth_error arr (Z.to_nat i))
  /\ (forall k, (forall i, k <> JNum i) ->
                JsMap.get k (arrayToMap arr) = None).
Proof.
  assert (Heq : arrayToMap arr = indexed_from 0 arr).
  { unfold arrayToMap. apply from_entries_wf, wf_indexed_from. }
  rewrite Heq. repeat split.
  - unfold JsMap.size. now rewrite length_indexed_from.
  - apply wf_indexed_from.
  - intros i. rewrite get_indexed_from, Z.sub_0_r. reflexivity.
  - intros k Hk. apply get_None_iff. intros Hin.
    destruct (keys_indexed_from_lower arr 0 k Hin) as (j & -> & _).
    now apply (Hk j).
Qed.

(** X7. [groupBy] stores under each key exactly the items with that key,
    in the order of the array; a key no item has is not stored. *)
Theorem groupBy_lookup {A : Type} (arr : list A) (keyFn : A -> js_value) :
  forall k,
    JsMap.get k (groupBy arr keyFn)
    = match filter (fun item =>
                      if js_value_eq_dec (keyFn item) k then true else false)
                   arr with
      | [] => None
      | items => Some items
      end.
Proof.
  intros k. unfold groupBy.
  pose proof (get_group_fold keyFn arr JsMap.empty k) as Hfold.
  cbv zeta in Hfold. rewrite Hfold. reflexivity.
Qed.

(** X8. [groupBy] partitions the array: the stored keys are distinct and
    are exactly the keys of the items, no group is empty, and the groups
    hold as many items in total as the array has. *)
Theorem groupBy_partition {A : Type} (arr : list A) (keyFn : A -> js_value) :
  JsMap.wf (groupBy arr keyFn)
  /\ (forall k, In k (JsMap.keys (groupBy arr keyFn))
                <-> In k (map keyFn arr))
  /\ (forall k, JsMap.get k (groupBy arr keyFn) <> Some [])
  /\ grouped_items (groupBy arr keyFn) = List.length arr.
Proof.
  assert (Hlookup : forall k,
    JsMap.get k (groupBy arr keyFn)
    = match filter (fun item =>
                      if js_value_eq_dec (keyFn item) k then true else false)
                   arr with
      | [] => None
      | items => Some items
      end).
  { intros k. unfold groupBy.
    pose proof (get_group_fold keyFn arr JsMap.empty k) as Hfold.
    cbv zeta in Hfold. rewrite Hfold. reflexivity. }
  split; [|split; [|split]].
  - unfold groupBy. apply (wf_group_fold keyFn arr JsMap.empty). constructor.
  - intros k.
    destruct (filter (fun item =>
                if js_value_eq_dec (keyFn item) k then true else false) arr)
      as [|x items] eqn:Hf.
    + assert (Hnone : JsMap.get k (groupBy arr keyFn) = None)
        by (now rewrite Hlookup, Hf).
      apply get_None_iff in Hnone. split; [tauto|].
      intros Hin. exfalso. apply in_map_iff in Hin.
      destruct Hin as (y & Hy & Hin).
      assert (Hy' : In y []).
      { rewrite <- Hf. apply filter_In. split; [exact Hin|].
        destruct (js_value_eq_dec (keyFn y) k); congruence. }
      destruct Hy'.
    + split.
      * intros _. assert (Hx : In x (x :: items)) by now left.
        rewrite <- Hf in Hx. apply filter_In in Hx. destruct Hx as [Hin Hk].
        destruct (js_value_eq_dec (keyFn x) k) as [<-|]; [|discriminate].
        now apply in_map.
      * intros _. apply (get_Some_in k (x :: items)).
        now rewrite Hlookup, Hf.
  - intros k. rewrite Hlookup.
    destruct (filter _ arr); discriminate.
  - unfold groupBy.
    pose proof (grouped_items_fold keyFn arr JsMap.empty) as Hcount.
    cbv zeta in Hcount. rewrite Hcount. reflexivity.
Qed.

End MapUtilsProperties.

(** ** Properties of the number utilities *)

Section NumberUtilsFacts.
Import NumberUtils.

Lemma gcd_rem_step (a b : Z) : Z.gcd b (Z.rem a b) = Z.gcd a b.
Proof.
  rewrite (Z.gcd_comm a b).
  rewrite (Z.quot_rem' a b) at 2.
  rewrite (Z.add_comm (b * Z.quot a b)), (Z.mul_comm b).
  now rewrite Z.gcd_add_mult_diag_r.
Qed.

Lemma gcd_loop_correct (a b : Z) : gcd a b = Z.gcd a b.
Proof.
  funelim (gcd a b).
  - subst. now rewrite Z.gcd_0_r.
  - match goal with IH : gcd _ _ = Z.gcd _ _ |- _ => rewrite IH end.
    apply gcd_rem_step.
Qed.

(** The loop of [isPrime] answers [true] exactly when no candidate
    [i], [i + 2], [i + 6], [i + 8], ... up to the square root divides. *)
Lemma isPrime_loop_spec (num i : Z) :
  0 < i ->
  isPrime_loop num i = true
  <-> (forall j, 0 <= j ->
         (i + 6 * j) * (i + 6 * j) <= num ->
         Z.rem num (i + 6 * j) <> 0 /\ Z.rem num (i + 6 * j + 2) <> 0).
Proof.
  funelim (isPrime_loop num i); intros Hi.
  - match goal with
    | IH : 0 < _ -> _ |- _ => assert (Hrec := IH ltac:(lia)); clear IH
    end.
    destruct (Z.eqb_spec (Z.rem num i) 0) as [Hr1|Hr1]; cbn [orb].
    { split; [discriminate|]. intros Hall.
      destruct (Hall 0) as [Hn _];
        rewrite ?Z.mul_0_r, ?Z.add_0_r in *; [lia | assumption | contradiction]. }
    destruct (Z.eqb_spec (Z.rem num (i + 2)) 0) as [Hr2|Hr2]; cbn [orb].
    { split; [discriminate|]. intros Hall.
      destruct (Hall 0) as [_ Hn];
        rewrite ?Z.mul_0_r, ?Z.add_0_r in *; [lia | assumption | contradiction]. }
    rewrite Hrec. split.
    + intros Hall j Hj Hsq. destruct (Z.eq_dec j 0) as [->|Hj0].
      * rewrite Z.mul_0_r, Z.add_0_r. tauto.
      * specialize (Hall (j - 1)).
        replace (i + 6 + 6 * (j - 1)) with (i + 6 * j) in Hall by lia.
        apply Hall; [lia | exact Hsq].
    + intros Hall j Hj Hsq. specialize (Hall (j + 1)).
      replace (i + 6 * (j + 1)) with (i + 6 + 6 * j) in Hall by lia.
      apply Hall; [lia | exact Hsq].
  - split; [|reflexivity]. intros _ j Hj Hsq. exfalso. nia.
Qed.

(** Once 2, 3 and the candidates of the loop are excluded, nothing up to
    the square root divides. *)
Lemma no_small_divisor (n : Z) :
  Z.rem n 2 <> 0 ->
  Z.rem n 3 <> 0 ->
  (forall j, 0 <= j ->
     (5 + 6 * j) * (5 + 6 * j) <= n ->
     Z.rem n (5 + 6 * j) <> 0 /\ Z.rem n (5 + 6 * j + 2) <> 0) ->
  forall d, 2 <= d -> d * d <= n -> ~ (d | n).
Proof.
  intros H2 H3 Hall d Hd Hsq Hdiv.
  assert (Hno2 : ~ (2 | d)).
  { intros H. apply H2. apply Z.rem_divide; [lia|].
    now apply (Z.divide_trans 2 d n). }
  assert (Hno3 : ~ (3 | d)).
  { intros H. apply H3. apply Z.rem_divide; [lia|].
    now apply (Z.divide_trans 3 d n). }
  pose proof (Z.div_mod d 6 ltac:(lia)) as Hd6.
  pose proof (Z.mod_pos_bound d 6 ltac:(lia)) as Hr.
  set (q := d / 6) in *. set (r := d mod 6) in *.
  assert (Hcases : r = 0 \/ r = 1 \/ r = 2 \/ r = 3 \/ r = 4 \/ r = 5) by lia.
  destruct Hcases as [Hr0|[Hr1|[Hr2|[Hr3|[Hr4|Hr5]]]]].
  - apply Hno2. exists (3 * q). lia.
  - destruct (Hall (q - 1)) as [_ Hn]; [lia | nia |].
    apply Hn. apply Z.rem_divide; [lia|].
    replace (5 + 6 * (q - 1) + 2) with d by lia. exact Hdiv.
  - apply Hno2. exists (3 * q + 1). lia.
  - apply Hno3. exists (2 * q + 1). lia.
  - apply Hno2. exists (3 * q + 2). lia.
  - destruct (Hall q) as [Hn _]; [lia | nia |].
    apply Hn. apply Z.rem_divide; [lia|].
    replace (5 + 6 * q) with d by lia. exact Hdiv.
Qed.

Lemma prime_of_no_small_divisor (n : Z) :
  1 < n ->
  (forall d, 2 <= d -> d * d <= n -> ~ (d | n)) ->
  Z.prime n.
Proof.
  intros Hn Hsmall. split; [exact Hn|].
  intros d Hd Hdiv.
  destruct (Z_le_gt_dec (d * d) n) as [Hle|Hgt].
  - apply (Hsmall d); [lia | exact Hle | exact Hdiv].
  - destruct Hdiv as [q Hq].
    assert (Hq1 : 1 < q) by nia.
    apply (Hsmall q); [lia | nia | exists d; lia].
Qed.

(** *** 32-bit operands *)

Lemma to_int32_range (z : Z) : - 2 ^ 31 <= to_int32 z < 2 ^ 31.
Proof.
  unfold to_int32.
  pose proof (Z.mod_pos_bound (z + 2 ^ 31) (2 ^ 32) ltac:(lia)).
  change (2 ^ 32) with 4294967296 in *.
  change (2 ^ 31) with 2147483648 in *. lia.
Qed.

Lemma to_int32_small (z : Z) : - 2 ^ 31 <= z < 2 ^ 31 -> to_int32 z = z.
Proof.
  intros Hz. unfold to_int32.
  change (2 ^ 32) with 4294967296 in *.
  change (2 ^ 31) with 2147483648 in *.
  rewrite Z.mod_small by lia. lia.
Qed.

Lemma size_nat_bound (p : positive) (n : nat) :
  Zpos p < 2 ^ Z.of_nat n -> (Pos.size_nat p <= n)%nat.
Proof.
  revert n. induction p as [p IH|p IH|]; intros n Hlt; simpl.
  - destruct n as [|m]; [simpl in Hlt; lia|].
    apply le_n_S, IH. rewrite Nat2Z.inj_succ, Z.pow_succ_r in Hlt; lia.
  - destruct n as [|m]; [simpl in Hlt; lia|].
    apply le_n_S, IH. rewrite Nat2Z.inj_succ, Z.pow_succ_r in Hlt; lia.
  - destruct n as [|m]; [simpl in Hlt; lia | lia].
Qed.

(** The loop of [countSetBits] on a positive number below 2^31: one
    iteration per binary digit, then it leaves. *)
Lemma countSetBits_loop_pos (p : positive) :
  forall fuel count,
    (Pos.size_nat p < fuel)%nat ->
    Zpos p < 2 ^ 31 ->
    countSetBits_loop fuel (Zpos p) count = Some (count + ones_of p).
Proof.
  induction p as [p IH|p IH|]; intros fuel count Hfuel Hlt;
    (destruct fuel as [|fuel]; [simpl in Hfuel; lia|]);
    cbn [countSetBits_loop Z.eqb].
  - rewrite to_int32_small by lia.
    change (Z.shiftr (Zpos p~1) 1) with (Zpos p).
    change (Z.land (Zpos p~1) 1) with 1.
    rewrite IH; [cbn [ones_of]; f_equal; lia | simpl in Hfuel; lia | lia].
  - rewrite to_int32_small by lia.
    change (Z.shiftr (Zpos p~0) 1) with (Zpos p).
    change (Z.land (Zpos p~0) 1) with 0.
    rewrite IH; [cbn [ones_of]; f_equal; lia | simpl in Hfuel; lia | lia].
  - destruct fuel as [|fuel]; [simpl in Hfuel; lia|]. reflexivity.
Qed.

(** The loop never leaves once the 32-bit reading of [num] is negative:
    the sign-propagating shift keeps it negative. *)
Lemma countSetBits_loop_negative (fuel : nat) :
  forall num count,
    to_int32 num < 0 -> countSetBits_loop fuel num count = None.
Proof.
  induction fuel as [|fuel IH]; intros num count Hneg; [reflexivity|].
  cbn [countSetBits_loop].
  destruct (Z.eqb_spec num 0) as [->|Hnz].
  { exfalso. rewrite to_int32_small in Hneg by lia. lia. }
  apply IH.
  pose proof (to_int32_range num) as Hr.
  rewrite Z.shiftr_div_pow2 by lia. change (2 ^ 1) with 2.
  assert (Hlo : - 2 ^ 31 <= to_int32 num / 2).
  { apply Z.div_le_lower_bound; lia. }
  assert (Hhi : to_int32 num / 2 < 0).
  { apply Z.div_lt_upper_bound; lia. }
  rewrite to_int32_small; lia.
Qed.

(** *** Bitwise and of a number with its predecessor *)

Lemma land_even_odd (a b : Z) :
  Z.land (2 * a) (2 * b + 1) = 2 * Z.land a b.
Proof.
  apply Z.bits_inj'. intros i Hi. rewrite Z.land_spec.
  destruct (Z.eq_dec i 0) as [->|Hne].
  - now rewrite !Z.testbit_even_0.
  - replace i with (Z.succ (i - 1)) by lia.
    rewrite !Z.testbit_even_succ, Z.testbit_odd_succ, Z.land_spec by lia.
    reflexivity.
Qed.

Lemma land_pred_pow2 (p : positive) :
  Z.land (Zpos p) (Zpos p - 1) = 0 <-> exists k, 0 <= k /\ Zpos p = 2 ^ k.
Proof.
  induction p as [p IH|p IH|].
  - rewrite Pos2Z.inj_xI.
    replace (2 * Zpos p + 1 - 1) with (2 * Zpos p) by lia.
    rewrite Z.land_comm, land_even_odd, Z.land_diag.
    split; [lia|]. intros (k & Hk & Heq). exfalso.
    destruct (Z.eq_dec k 0) as [->|Hk0]; [simpl in Heq; lia|].
    replace k with (Z.succ (k - 1)) in Heq by lia.
    rewrite Z.pow_succ_r in Heq; lia.
  - rewrite Pos2Z.inj_xO.
    replace (2 * Zpos p - 1) with (2 * (Zpos p - 1) + 1) by lia.
    rewrite land_even_odd. split.
    + intros Hz. assert (Hz' : Z.land (Zpos p) (Zpos p - 1) = 0) by lia.
      apply IH in Hz'. destruct Hz' as (k & Hk & Heq).
      exists (Z.succ k). split; [lia|]. rewrite Z.pow_succ_r; lia.
    + intros (k & Hk & Heq).
      destruct (Z.eq_dec k 0) as [->|Hk0]; [simpl in Heq; lia|].
      replace k with (Z.succ (k - 1)) in Heq by lia.
      rewrite Z.pow_succ_r in Heq by lia.
      assert (Hp : exists k', 0 <= k' /\ Zpos p = 2 ^ k')
        by (exists (k - 1); split; lia).
      apply IH in Hp. lia.
  - split; [|reflexivity]. intros _. exists 0. split; [lia | reflexivity].
Qed.

End NumberUtilsFacts.

Section NumberUtilsProperties.
Import NumberUtils.

(** X9. [gcd] returns the greatest common divisor of its arguments for
    all integers, negative ones and zero included: the result is never
    negative, divides both arguments, and every common divisor divides it;
    with a zero second argument it is the absolute value of the first. *)
Theorem gcd_greatest_common_divisor (a b : Z) :
  gcd a b = Z.gcd a b
  /\ 0 <= gcd a b
  /\ (gcd a b | a)
  /\ (gcd a b | b)
  /\ (forall d, (d | a) -> (d | b) -> (d | gcd a b))
  /\ gcd a 0 = Z.abs a.
Proof.
  rewrite !gcd_loop_correct. repeat split.
  - apply Z.gcd_nonneg.
  - apply Z.gcd_divide_l.
  - apply Z.gcd_divide_r.
  - intros d Ha Hb. now apply Z.gcd_greatest.
  - apply Z.gcd_0_r.
Qed.



(** X11. [isPrime] answers [true] exactly on the prime numbers; numbers
    below 2, negative ones included, are rejected. *)
Theorem isPrime_iff_prime (num : Z) : isPrime num = true <-> Z.prime num.
Proof.
  unfold isPrime.
  destruct (Z.leb_spec num 1) as [Hle1|Hgt1].
  { split; [discriminate|]. intros Hp. apply Z.prime_ge_2 in Hp. lia. }
  destruct (Z.leb_spec num 3) as [Hle3|Hgt3].
  { split; [|reflexivity]. intros _.
    assert (Hcases : num = 2 \/ num = 3) by lia.
    destruct Hcases as [->| ->]; [apply Z.prime_2 | apply Z.prime_3]. }
  destruct (Z.eqb_spec (Z.rem num 2) 0) as [Hr2|Hr2]; cbn [orb].
  { split; [discriminate|]. intros Hp. exfalso.
    destruct Hp as [_ Hp].
    apply (Hp 2); [lia|]. apply Z.rem_divide; [lia | exact Hr2]. }
  destruct (Z.eqb_spec (Z.rem num 3) 0) as [Hr3|Hr3]; cbn [orb].
  { split; [discriminate|]. intros Hp. exfalso.
    destruct Hp as [_ Hp].
    apply (Hp 3); [lia|]. apply Z.rem_divide; [lia | exact Hr3]. }
  rewrite isPrime_loop_spec by lia. split.
  - intros Hall. apply prime_of_no_small_divisor; [lia|].
    now apply no_small_divisor.
  - intros Hp j Hj Hsq. destruct Hp as [_ Hp].
    split; intros Hrem.
    + apply (Hp (5 + 6 * j)); [nia|]. apply Z.rem_divide; [lia | exact Hrem].
    + apply (Hp (5 + 6 * j + 2)); [nia|].
      apply Z.rem_divide; [lia | exact Hrem].
Qed.

(** X12. On a number from 0 up to 2^31 - 1, [countSetBits] leaves its
    loop within 32 iterations and returns the number of 1 digits of the
    binary writing of the number. *)
Theorem countSetBits_counts_ones (num : Z) (fuel : nat) :
  0 <= num < 2 ^ 31 ->
  (32 <= fuel)%nat ->
  countSetBits fuel num = Some (set_bits num).
Proof.
  intros Hnum Hfuel. unfold countSetBits.
  destruct num as [|p|p]; [| |lia].
  - destruct fuel; [lia | reflexivity].
  - rewrite countSetBits_loop_pos; [reflexivity | | lia].
    pose proof (size_nat_bound p 31 ltac:(simpl; lia)). lia.
Qed.

Lemma countSetBits_counts_ones_witness : countSetBits 32 13 = Some 3.
Proof.
  assert (Hnum : 0 <= 13 < 2 ^ 31) by (simpl; lia).
  exact (countSetBits_counts_ones 13 32 Hnum (le_n 32)).
Defined.

(** X13. On a negative 32-bit number, and on a number from 2^31 up to
    2^32 - 1, [countSetBits] never leaves its loop: no number of
    iterations is enough. *)
Theorem countSetBits_negative_never_returns (num : Z) (fuel : nat) :
  - 2 ^ 31 <= num < 0 \/ 2 ^ 31 <= num < 2 ^ 32 ->
  countSetBits fuel num = None.
Proof.
  intros Hnum. unfold countSetBits. apply countSetBits_loop_negative.
  destruct Hnum as [Hneg|Hbig].
  - rewrite to_int32_small; lia.
  - unfold to_int32.
    change (2 ^ 32) with 4294967296 in *.
    change (2 ^ 31) with 2147483648 in *.
    replace (num + 2147483648)
      with (num - 2147483648 + 1 * 4294967296) by lia.
    rewrite Z.mod_add, Z.mod_small by lia. lia.
Qed.

Lemma countSetBits_negative_never_returns_witness :
  countSetBits 1000 (-1) = None.
Proof.
  assert (Hnum : - 2 ^ 31 <= -1 < 0 \/ 2 ^ 31 <= -1 < 2 ^ 32)
    by (left; simpl; lia).
  exact (countSetBits_negative_never_returns (-1) 1000 Hnum).
Defined.

(** X14. Below 2^31, [isPowerOfTwo] answers [true] exactly on the powers
    of two 1, 2, 4, ...; zero and negative numbers are rejected. *)
Theorem isPowerOfTwo_below_2_31 (num : Z) :
  num < 2 ^ 31 ->
  isPowerOfTwo num = true <-> exists k, 0 <= k /\ num = 2 ^ k.
Proof.
  intros Hlt. unfold isPowerOfTwo.
  destruct num as [|p|p].
  - split; [discriminate|]. intros (k & Hk & Heq).
    pose proof (Z.pow_pos_nonneg 2 k ltac:(lia) Hk). lia.
  - cbn [Z.gtb Z.compare andb].
    rewrite !to_int32_small by lia.
    rewrite <- land_pred_pow2. apply Z.eqb_eq.
  - split; [discriminate|]. intros (k & Hk & Heq).
    pose proof (Z.pow_pos_nonneg 2 k ltac:(lia) Hk). lia.
Qed.

Lemma isPowerOfTwo_below_2_31_witness : isPowerOfTwo 1024 = true.
Proof.
  assert (Hlt : 1024 < 2 ^ 31) by (simpl; lia).
  apply (proj2 (isPowerOfTwo_below_2_31 1024 Hlt)).
  exists 10. split; [lia | reflexivity].
Defined.

(** X15. Past 32 bits [isPowerOfTwo] reads only the low 32 bits of its
    operands: it answers [true] on every positive multiple of 2^32, for
    instance on 3 * 2^32, which is not a power of two. *)
Theorem isPowerOfTwo_multiple_of_2_32 (m : Z) :
  0 < m ->
  isPowerOfTwo (m * 2 ^ 32) = true
  /\ ~ (exists k, 0 <= k /\ 3 * 2 ^ 32 = 2 ^ k).
Proof.
  intros Hm. split.
  - unfold isPowerOfTwo.
    assert (Hz : to_int32 (m * 2 ^ 32) = 0).
    { unfold to_int32. rewrite Z.add_comm, Z.mod_add by lia. reflexivity. }
    rewrite Hz, Z.land_0_l.
    destruct (Z.gtb_spec (m * 2 ^ 32) 0) as [_|Hle]; [reflexivity|].
    change (2 ^ 32) with 4294967296 in Hle. lia.
  - intros (k & Hk & Heq).
    destruct (Z_le_gt_dec k 32) as [Hle|Hgt].
    + pose proof (Z.pow_le_mono_r 2 k 32 ltac:(lia) Hle) as Hp.
      change (2 ^ 32) with 4294967296 in *. lia.
    + destruct (Z.eq_dec k 33) as [->|Hne].
      * change (2 ^ 32) with 4294967296 in Heq.
        change (2 ^ 33) with 8589934592 in Heq. lia.
      * pose proof (Z.pow_le_mono_r 2 34 k ltac:(lia) ltac:(lia)) as Hp.
        change (2 ^ 32) with 4294967296 in *.
        change (2 ^ 34) with 17179869184 in *. lia.
Qed.

Lemma isPowerOfTwo_multiple_of_2_32_witness :
  isPowerOfTwo (3 * 2 ^ 32) = true.
Proof.
  assert (Hm : 0 < 3) by lia.
  exact (proj1 (isPowerOfTwo_multiple_of_2_32 3 Hm)).
Defined.

End NumberUtilsProperties.

(** ** Further properties of the cache and of the Map utilities *)

Section FurtherProperties.
Import JsMapFacts.
Import MapUtils.
Import Cache.

(** X16. Reading a key right after putting it, in any cache whatever its
    capacity and content: the value just put comes back while the clock
    has not passed the put's reading plus its ttl, and null afterwards;
    a read that returns the value leaves the cache as the put left it. *)
Theorem get_after_set_round_trip :
  forall this key value ttl t now,
    fst (Cache.get key now (Cache.set key value ttl t this))
    = (if now >? t + or_default default_ttl ttl then JNull else value)
    /\ (now <= t + or_default default_ttl ttl ->
        Cache.get key now (Cache.set key value ttl t this)
        = (value, Cache.set key value ttl t this)).
Proof.
  intros this key value ttl t now.
  pose proof (get_after_set key value ttl t this) as Hget.
  split.
  - destruct (Z.gtb_spec now (t + or_default default_ttl ttl)) as [Hgt|Hle].
    + now rewrite (get_expired key now _ _ Hget).
    + now rewrite (get_live key now _ _ Hget).
  - intros Hle. now rewrite (get_live key now _ _ Hget).
Qed.

Lemma get_after_set_round_trip_witness :
  Cache.get (JStr "k") 7
    (Cache.set (JStr "k") (JNum 1) (Some 5) 2
       {| cache := [(JStr "old", mkEntry (JNum 0) 100)]; maxSize := 1 |})
  = (JNum 1,
     Cache.set (JStr "k") (JNum 1) (Some 5) 2
       {| cache := [(JStr "old", mkEntry (JNum 0) 100)]; maxSize := 1 |}).
Proof.
  assert (Hle : 7 <= 2 + or_default default_ttl (Some 5)) by (simpl; lia).
  exact (proj2 (get_after_set_round_trip
    {| cache := [(JStr "old", mkEntry (JNum 0) 100)]; maxSize := 1 |}
    (JStr "k") (JNum 1) (Some 5) 2 7) Hle).
Defined.

(** X17. A [get] touches nothing but its own key: the capacity and the
    entry of every other key are as before, the store never grows, and
    asking again at the same clock reading gives the same answer and
    changes nothing more. *)
Theorem get_touches_only_its_key :
  forall this key now,
    maxSize (snd (Cache.get key now this)) = maxSize this
    /\ (forall k, k <> key ->
          JsMap.get k (cache (snd (Cache.get key now this)))
          = JsMap.get k (cache this))
    /\ JsMap.size (cache (snd (Cache.get key now this)))
       <= JsMap.size (cache this)
    /\ Cache.get key now (snd (Cache.get key now this))
       = (fst (Cache.get key now this), snd (Cache.get key now this)).
Proof.
  intros this key now.
  destruct (JsMap.get key (cache this)) as [data|] eqn:Hget.
  - destruct (Z_lt_le_dec (expiry data) now) as [Hlt|Hle].
    + rewrite (get_expired key now this data Hget Hlt). cbn [fst snd].
      repeat split.
      * intros k Hne. cbn [cache with_cache]. now apply get_delete_other.
      * cbn [cache with_cache].
        pose proof (length_delete_le key (cache this)).
        unfold JsMap.size. lia.
      * apply get_absent. cbn [cache with_cache]. apply get_delete_same.
    + rewrite (get_live key now this data Hget Hle). cbn [fst snd].
      repeat split; [lia|]. now apply get_live.
  - rewrite (get_absent key now this Hget). cbn [fst snd].
    repeat split; [lia|]. now apply get_absent.
Qed.

Lemma get_touches_only_its_key_witness :
  JsMap.get (JStr "b")
    (cache (snd (Cache.get (JStr "a") 9
       {| cache := [(JStr "a", mkEntry (JNum 1) 5);
                    (JStr "b", mkEntry (JNum 2) 5)];
          maxSize := 2 |})))
  = Some (mkEntry (JNum 2) 5).
Proof.
  assert (Hne : JStr "b" <> JStr "a") by discriminate.
  exact (proj1 (proj2 (get_touches_only_its_key
    {| cache := [(JStr "a", mkEntry (JNum 1) 5);
                 (JStr "b", mkEntry (JNum 2) 5)];
       maxSize := 2 |} (JStr "a") 9)) (JStr "b") Hne).
Defined.

(** X18. A put into a cache holding fewer entries than its capacity
    evicts nothing: every other key reads as before, expired entries
    included; a stored key keeps its place in the insertion order and a
    new key goes last. *)
Theorem set_with_room_keeps_entries :
  forall this key value ttl now,
    JsMap.size (cache this) < maxSize this ->
    (forall k, k <> key ->
       JsMap.get k (cache (Cache.set key value ttl now this))
       = JsMap.get k (cache this))
    /\ JsMap.keys (cache (Cache.set key value ttl now this))
       = (if in_dec js_value_eq_dec key (JsMap.keys (cache this))
          then JsMap.keys (cache this)
          else JsMap.keys (cache this) ++ [key])
    /\ JsMap.size (cache (Cache.set key value ttl now this))
       <= maxSize this.
Proof.
  intros this key value ttl now Hroom.
  rewrite cache_set_room by assumption. repeat split.
  - intros k Hne. now apply get_set_other.
  - destruct (in_dec js_value_eq_dec key (JsMap.keys (cache this)))
      as [Hin|Hout].
    + now apply keys_set_present.
    + rewrite set_absent by assumption.
      unfold JsMap.keys. now rewrite map_app.
  - pose proof (length_set_le key
      (mkEntry value (now + or_default default_ttl ttl)) (cache this)).
    unfold JsMap.size in *. lia.
Qed.

Lemma set_with_room_keeps_entries_witness :
  JsMap.keys
    (cache (Cache.set (JStr "b") (JNum 2) None 0
       {| cache := [(JStr "a", mkEntry (JNum 1) (-5))]; maxSize := 3 |}))
  = [JStr "a"; JStr "b"].
Proof.
  assert (Hroom : JsMap.size [(JStr "a", mkEntry (JNum 1) (-5))] < 3)
    by (unfold JsMap.size; simpl; lia).
  exact (proj1 (proj2 (set_with_room_keeps_entries
    {| cache := [(JStr "a", mkEntry (JNum 1) (-5))]; maxSize := 3 |}
    (JStr "b") (JNum 2) None 0 Hroom))).
Defined.

Lemma set_same_entry {E : Type} (m : JsMap.t E) k e :
  JsMap.get k m = Some e -> JsMap.set k e m = m.
Proof.
  induction m as [|[k0 e0] rest IH]; simpl; [discriminate|].
  destruct (js_value_eq_dec k k0) as [->|Hne].
  - now intros [= ->].
  - intros Hget. f_equal. now apply IH.
Qed.

Lemma fold_set_same_entries {E : Type} (l m : JsMap.t E) :
  (forall k e, In (k, e) l -> JsMap.get k m = Some e) ->
  fold_left (fun acc kv => JsMap.set (fst kv) (snd kv) acc) l m = m.
Proof.
  induction l as [|[k e] rest IH]; simpl; intros Hall; [reflexivity|].
  rewrite set_same_entry by (apply Hall; now left).
  apply IH. intros k' e' Hin. apply Hall. now right.
Qed.

Lemma get_of_entry {E : Type} (m : JsMap.t E) k e :
  JsMap.wf m -> In (k, e) m -> JsMap.get k m = Some e.
Proof.
  unfold JsMap.wf.
  induction m as [|[k0 e0] rest IH]; simpl; intros Hnd Hin; [destruct Hin|].
  inversion Hnd as [|? ? Hk0 Hrest]; subst.
  destruct Hin as [[= -> ->]|Hin].
  - destruct (js_value_eq_dec k k); congruence.
  - destruct (js_value_eq_dec k k0) as [->|Hne]; [|now apply IH].
    exfalso. apply Hk0. unfold JsMap.keys. apply in_map_iff.
    now exists (k0, e).
Qed.

(** X19. Merging with an empty Map, on either side, returns the other
    Map, and merging a Map with itself returns it unchanged. *)
Theorem mergeMaps_identities {E : Type} (m : JsMap.t E) :
  JsMap.wf m ->
  mergeMaps m JsMap.empty = m
  /\ mergeMaps JsMap.empty m = m
  /\ mergeMaps m m = m.
Proof.
  intros Hwf. repeat split.
  - unfold mergeMaps, entries, JsMap.empty. rewrite app_nil_r.
    now apply from_entries_wf.
  - unfold mergeMaps, entries, JsMap.empty. simpl.
    now apply from_entries_wf.
  - unfold mergeMaps, from_entries, entries. rewrite fold_left_app.
    fold (from_entries m). rewrite (from_entries_wf m Hwf).
    apply fold_set_same_entries. intros k e Hin. now apply get_of_entry.
Qed.

Lemma mergeMaps_identities_witness :
  mergeMaps [(JStr "a", 1); (JStr "b", 2)] [(JStr "a", 1); (JStr "b", 2)]
  = [(JStr "a", 1); (JStr "b", 2)].
Proof.
  assert (Hwf : JsMap.wf [(JStr "a", 1); (JStr "b", 2)]).
  { repeat constructor; simpl; intuition discriminate. }
  exact (proj2 (proj2 (mergeMaps_identities _ Hwf))).
Defined.

(** X20. Filtering twice is filtering once with both predicates. *)
Theorem filterMap_compose {E : Type} (m : JsMap.t E)
    (p q : js_value -> E -> bool) :
  JsMap.wf m ->
  filterMap (filterMap m p) q = filterMap m (fun k e => p k e && q k e).
Proof.
  intros Hwf.
  assert (Hfilter : forall (r : js_value -> E -> bool) (x : JsMap.t E),
             JsMap.wf x ->
             filterMap x r = filter (fun kv => r (fst kv) (snd kv)) x).
  { intros r x Hx. unfold filterMap, entries.
    apply from_entries_wf. now apply wf_filter. }
  rewrite (Hfilter p m Hwf), (Hfilter _ m Hwf).
  rewrite Hfilter by now apply wf_filter.
  clear Hwf Hfilter. induction m as [|[k e] rest IH]; simpl; [reflexivity|].
  destruct (p k e); simpl; [destruct (q k e)|]; now rewrite IH.
Qed.

Lemma filterMap_compose_witness :
  filterMap (filterMap [(JStr "a", 1); (JStr "b", 2); (JStr "c", 3)]
               (fun _ v => Z.odd v))
    (fun _ v => 2 <? v)
  = filterMap [(JStr "a", 1); (JStr "b", 2); (JStr "c", 3)]
      (fun _ v => Z.odd v && (2 <? v)).
Proof.
  assert (Hwf : JsMap.wf [(JStr "a", 1); (JStr "b", 2); (JStr "c", 3)]).
  { repeat constructor; simpl; intuition discriminate. }
  exact (filterMap_compose _ (fun _ v => Z.odd v) (fun _ v => 2 <? v) Hwf).
Defined.

End FurtherProperties.
